(** * Chalice front end: the lexer and the recursive-descent parser

    A shallow embedding of [src/lexer.cpp].  The translation unit keeps its
    whole state in globals ([LastChar], [IdentifierStr], [NumVal], [CurTok],
    [BinopPrecedence]) and talks to the outside through [getchar] and
    [fprintf(stderr, ...)]; here all of it is one record that every function
    takes and returns. *)

From Stdlib Require Import ZArith String Ascii Bool List Lia.
From Stdlib Require Import Floats.SpecFloat.
From stdpp Require Import gmap strings.
From Equations Require Import Equations.

Set Warnings "-register-all".

Open Scope Z_scope.

(** ** Characters and the <cctype> predicates

    [getchar] returns an [int]: an [unsigned char] value, or [EOF].  The
    predicates are those of the "C" locale; all of them answer 0 on [EOF]
    and on the bytes above 127. *)

Definition chr (a : ascii) : Z := Z.of_N (N_of_ascii a).

(** Conversion of an [int] to [char] (as in [IdentifierStr += LastChar]). *)
Definition to_char (c : Z) : ascii := ascii_of_N (Z.to_N (c mod 256)).

Definition EOF : Z := -1.

Definition isspace (c : Z) : bool :=
  (c =? chr " ") || ((chr "009" <=? c) && (c <=? chr "013")).

Definition isdigit (c : Z) : bool :=
  (chr "0" <=? c) && (c <=? chr "9").

Definition isalpha (c : Z) : bool :=
  ((chr "A" <=? c) && (c <=? chr "Z")) || ((chr "a" <=? c) && (c <=? chr "z")).

Definition isalnum (c : Z) : bool := isalpha c || isdigit c.

Definition isascii (c : Z) : bool := (0 <=? c) && (c <=? 127).

(** ** [strtod] on the strings the lexer builds

    [NumStr] only ever holds decimal digits and ['.'].  On such a string
    [strtod] converts the longest prefix of the form
    [digits [. digits]] that has at least one digit, and returns zero when
    there is none ("no conversion is performed").  The decimal value is
    rounded to the nearest binary64 number, ties to even. *)

Definition double := spec_float.

Definition prec : Z := 53.
Definition emax : Z := 1024.

Fixpoint scan_digits (s : string) (m : Z) (n : nat) : Z * nat * string :=
  match s with
  | String a r =>
      if isdigit (chr a) then scan_digits r (10 * m + (chr a - chr "0")) (S n)
      else (m, n, s)
  | EmptyString => (m, n, s)
  end.

(** [num / den] rounded to binary64, for [0 <= num] and [0 < den]. *)
Definition round_ratio (num den : Z) : double :=
  if num =? 0 then S754_zero false
  else
    let '(mz, ez, lz) := SFdiv_core_binary prec emax num 0 den 0 in
    binary_round_aux prec emax false mz ez lz.

Definition strtod (s : string) : double :=
  let '(mi, ni, r) := scan_digits s 0 0 in
  let '(m, nf) :=
    match r with
    | String "." r' => let '(m, nf, _) := scan_digits r' mi 0 in (m, nf)
    | _ => (mi, 0%nat)
    end in
  if (ni + nf =? 0)%nat then S754_zero false
  else round_ratio m (10 ^ Z.of_nat nf).

(** ** Tokens *)

Definition tok_eof : Z := -1.
Definition tok_def : Z := -2.
Definition tok_extern : Z := -3.
Definition tok_identifier : Z := -4.
Definition tok_number : Z := -5.

(** ** The globals of the translation unit *)

Record State := mkState {
  stdin : string;                     (* what [getchar] has not returned yet *)
  LastChar : Z;                       (* [static int LastChar] of [gettok] *)
  IdentifierStr : string;
  NumVal : double;
  CurTok : Z;
  BinopPrecedence : gmap ascii Z;     (* [std::map<char, int>] *)
  stderr : string                     (* what has been printed on [stderr] *)
}.

Definition set_cursor (cur : Z * string) (st : State) : State :=
  mkState (snd cur) (fst cur) (IdentifierStr st) (NumVal st) (CurTok st)
          (BinopPrecedence st) (stderr st).

Definition set_IdentifierStr (s : string) (st : State) : State :=
  mkState (stdin st) (LastChar st) s (NumVal st) (CurTok st)
          (BinopPrecedence st) (stderr st).

Definition set_NumVal (d : double) (st : State) : State :=
  mkState (stdin st) (LastChar st) (IdentifierStr st) d (CurTok st)
          (BinopPrecedence st) (stderr st).

Definition set_CurTok (t : Z) (st : State) : State :=
  mkState (stdin st) (LastChar st) (IdentifierStr st) (NumVal st) t
          (BinopPrecedence st) (stderr st).

Definition set_BinopPrecedence (m : gmap ascii Z) (st : State) : State :=
  mkState (stdin st) (LastChar st) (IdentifierStr st) (NumVal st) (CurTok st)
          m (stderr st).

Definition fputs_stderr (s : string) (st : State) : State :=
  mkState (stdin st) (LastChar st) (IdentifierStr st) (NumVal st) (CurTok st)
          (BinopPrecedence st) (stderr st +:+ s).

Definition cursor (st : State) : Z * string := (LastChar st, stdin st).

(** ** The lexer

    The loops of [gettok] run over the unread input; each returns the new
    [LastChar] and what is left of the input. *)

Definition getchar (inp : string) : Z * string :=
  match inp with
  | EmptyString => (EOF, EmptyString)
  | String a inp' => (chr a, inp')
  end.

(** [while (isspace(LastChar)) LastChar = getchar();] *)
Fixpoint skip_space (c : Z) (inp : string) {struct inp} : Z * string :=
  if isspace c then
    match inp with
    | EmptyString => (EOF, EmptyString)
    | String a inp' => skip_space (chr a) inp'
    end
  else (c, inp).

(** [while (isalnum((LastChar = getchar()))) IdentifierStr += LastChar;] *)
Fixpoint read_identifier (id : string) (inp : string) : string * (Z * string) :=
  match inp with
  | EmptyString => (id, (EOF, EmptyString))
  | String a inp' =>
      if isalnum (chr a) then read_identifier (id +:+ String a EmptyString) inp'
      else (id, (chr a, inp'))
  end.

(** [do { NumStr += LastChar; LastChar = getchar(); }
     while (isdigit(LastChar) || LastChar == '.');] *)
Fixpoint read_number (NumStr : string) (c : Z) (inp : string)
  : string * (Z * string) :=
  let NumStr' := NumStr +:+ String (to_char c) EmptyString in
  match inp with
  | EmptyString => (NumStr', (EOF, EmptyString))
  | String a inp' =>
      if isdigit (chr a) || (chr a =? chr ".") then read_number NumStr' (chr a) inp'
      else (NumStr', (chr a, inp'))
  end.

(** [do LastChar = getchar();
     while (LastChar != EOF && LastChar != '\n' && LastChar != '\r');] *)
Fixpoint skip_comment (inp : string) : Z * string :=
  match inp with
  | EmptyString => (EOF, EmptyString)
  | String a inp' =>
      if (chr a =? chr "010") || (chr a =? chr "013") then (chr a, inp')
      else skip_comment inp'
  end.

(** One run through the body of [gettok]: it either returns a token or, after
    a comment, calls [gettok] again.  [gettok_token] is the body from the
    first character that is not white space on. *)
Inductive lexed :=
| Emit (tok : Z) (st : State)
| Restart (st : State).

Definition gettok_token (c : Z) (inp : string) (st : State) : lexed :=
  if isalpha c then
    let '(id, cur) := read_identifier (String (to_char c) EmptyString) inp in
    let st := set_cursor cur (set_IdentifierStr id st) in
    if String.eqb id "def" then Emit tok_def st
    else if String.eqb id "extern" then Emit tok_extern st
    else Emit tok_identifier st
  else if isdigit c || (c =? chr ".") then
    let '(NumStr, cur) := read_number EmptyString c inp in
    Emit tok_number (set_cursor cur (set_NumVal (strtod NumStr) st))
  else if c =? chr "#" then
    let cur := skip_comment inp in
    if negb (fst cur =? EOF) then Restart (set_cursor cur st)
    else Emit tok_eof (set_cursor cur st)
  else if c =? EOF then Emit tok_eof (set_cursor (c, inp) st)
  else Emit c (set_cursor (getchar inp) st).

Definition gettok_body (st : State) : lexed :=
  let '(c, inp) := skip_space (LastChar st) (stdin st) in
  gettok_token c inp st.

Lemma skip_space_length c inp :
  (String.length (snd (skip_space c inp)) <= String.length inp)%nat.
Proof.
  revert c; induction inp as [|a inp IH]; intros c; simpl.
  - destruct (isspace c); simpl; lia.
  - destruct (isspace c); simpl; [specialize (IH (chr a))|]; lia.
Qed.

Lemma skip_comment_length inp :
  fst (skip_comment inp) <> EOF ->
  (String.length (snd (skip_comment inp)) < String.length inp)%nat.
Proof.
  induction inp as [|a inp IH]; simpl; intros H.
  - congruence.
  - destruct ((chr a =? chr "010") || (chr a =? chr "013")); simpl in *.
    + lia.
    + specialize (IH H); lia.
Qed.

Lemma gettok_body_Restart st st' :
  gettok_body st = Restart st' ->
  (String.length (stdin st') < String.length (stdin st))%nat.
Proof.
  unfold gettok_body, gettok_token.
  pose proof (skip_space_length (LastChar st) (stdin st)) as Hs.
  destruct (skip_space (LastChar st) (stdin st)) as [c inp]; simpl in Hs.
  destruct (isalpha c).
  { destruct (read_identifier _ inp) as [id cur].
    repeat match goal with |- context [if ?b then _ else _] => destruct b end;
      discriminate. }
  destruct (isdigit c || (c =? chr ".")).
  { destruct (read_number _ c inp); discriminate. }
  destruct (c =? chr "#"); [|destruct (c =? EOF); discriminate].
  destruct (negb (fst (skip_comment inp) =? EOF)) eqn:E; [|discriminate].
  intros [= <-]; simpl.
  apply negb_true_iff, Z.eqb_neq, skip_comment_length in E. lia.
Qed.

(** [gettok] calls itself after a comment, on a shorter input. *)
Definition inspect {A} (a : A) : {b : A | a = b} := exist _ a eq_refl.

Equations? gettok (st : State) : Z * State
  by wf (String.length (stdin st)) lt :=
  gettok st with inspect (gettok_body st) => {
    | exist _ (Emit tok st') _ => (tok, st')
    | exist _ (Restart st') _ => gettok st' }.
Proof. eapply gettok_body_Restart; eauto. Qed.

Lemma gettok_eq st :
  gettok st = match gettok_body st with
              | Emit tok st' => (tok, st')
              | Restart st' => gettok st'
              end.
Proof. funelim (gettok st); rewrite e; reflexivity. Qed.

(** *** How much input is left

    [mu] counts the characters the lexer has not consumed yet: the unread
    input and, unless it is [EOF], the character held in [LastChar]. *)

Definition cur_mu (cur : Z * string) : nat :=
  (String.length (snd cur) + (if (fst cur =? EOF)%Z then 0 else 1))%nat.

Definition mu (st : State) : nat := cur_mu (cursor st).

Ltac eval_chr :=
  repeat match goal with
         | |- context [chr (Ascii ?a ?b ?c ?d ?e ?f ?g ?h)] =>
             let v := eval vm_compute in (chr (Ascii a b c d e f g h)) in
             change (chr (Ascii a b c d e f g h)) with v in *
         | H : context [chr (Ascii ?a ?b ?c ?d ?e ?f ?g ?h)] |- _ =>
             let v := eval vm_compute in (chr (Ascii a b c d e f g h)) in
             change (chr (Ascii a b c d e f g h)) with v in *
         end.

Ltac ctype :=
  unfold isalnum, isalpha, isdigit, isspace, isascii, EOF, tok_eof, tok_def,
    tok_extern, tok_identifier, tok_number in *;
  eval_chr;
  repeat match goal with
         | |- _ = false => apply not_true_is_false; intro
         | H : _ || _ = true |- _ => apply orb_true_iff in H
         | H : _ && _ = true |- _ => apply andb_true_iff in H
         | H : (_ <=? _) = true |- _ => apply Z.leb_le in H
         | H : (_ =? _) = true |- _ => apply Z.eqb_eq in H
         | H : _ /\ _ |- _ => destruct H
         | H : _ \/ _ |- _ => destruct H
         end;
  lia.

Lemma chr_range a : 0 <= chr a <= 255.
Proof. destruct a as [[] [] [] [] [] [] [] []]; vm_compute; split; congruence. Qed.

Lemma chr_not_EOF a : (chr a =? EOF) = false.
Proof. pose proof (chr_range a). apply Z.eqb_neq. unfold EOF. lia. Qed.

Lemma cur_mu_skip_space c inp :
  (cur_mu (skip_space c inp) <= cur_mu (c, inp))%nat.
Proof.
  revert c; induction inp as [|a inp IH]; intros c; simpl.
  - destruct (isspace c) eqn:E; unfold cur_mu; simpl; [|lia].
    destruct (c =? EOF); lia.
  - destruct (isspace c) eqn:E; [|lia].
    specialize (IH (chr a)). unfold cur_mu in *; simpl in *.
    rewrite chr_not_EOF in IH. destruct (c =? EOF) eqn:E'; [|lia].
    apply Z.eqb_eq in E'; subst. discriminate.
Qed.

Lemma cur_mu_skip_space_lt c inp :
  isspace c = true -> (cur_mu (skip_space c inp) < cur_mu (c, inp))%nat.
Proof.
  intros E. assert ((c =? EOF) = false) as E' by (apply Z.eqb_neq; intros ->; discriminate).
  destruct inp as [|a inp]; simpl; rewrite E; unfold cur_mu at 2; simpl; rewrite E'.
  - unfold cur_mu; simpl; lia.
  - pose proof (cur_mu_skip_space (chr a) inp) as H. unfold cur_mu at 2 in H.
    simpl in H. rewrite chr_not_EOF in H. lia.
Qed.

Lemma skip_space_id c inp : isspace c = false -> skip_space c inp = (c, inp).
Proof. intros E. destruct inp; simpl; rewrite E; reflexivity. Qed.

Lemma skip_space_EOF inp : skip_space EOF inp = (EOF, inp).
Proof. destruct inp; reflexivity. Qed.

Lemma skip_space_not_space c inp : isspace (fst (skip_space c inp)) = false.
Proof.
  revert c; induction inp as [|a inp IH]; intros c; simpl;
    destruct (isspace c) eqn:E; simpl; auto.
Qed.

Lemma cur_mu_getchar inp : (cur_mu (getchar inp) <= String.length inp)%nat.
Proof.
  destruct inp as [|a inp]; unfold cur_mu; simpl; [lia|].
  rewrite chr_not_EOF. lia.
Qed.

Lemma cur_mu_read_identifier id inp :
  (cur_mu (snd (read_identifier id inp)) <= String.length inp)%nat.
Proof.
  revert id; induction inp as [|a inp IH]; intros id; simpl.
  - unfold cur_mu; simpl; lia.
  - destruct (isalnum (chr a)).
    + specialize (IH (id +:+ String a EmptyString)). lia.
    + unfold cur_mu; simpl. rewrite chr_not_EOF. lia.
Qed.

Lemma cur_mu_read_number s c inp :
  (cur_mu (snd (read_number s c inp)) <= String.length inp)%nat.
Proof.
  revert s c; induction inp as [|a inp IH]; intros s c; simpl.
  - unfold cur_mu; simpl; lia.
  - destruct (isdigit (chr a) || (chr a =? chr ".")).
    + specialize (IH (s +:+ String (to_char c) EmptyString) (chr a)). lia.
    + unfold cur_mu; simpl. rewrite chr_not_EOF. lia.
Qed.

Lemma cur_mu_skip_comment inp :
  (cur_mu (skip_comment inp) <= String.length inp)%nat.
Proof.
  induction inp as [|a inp IH]; simpl.
  - unfold cur_mu; simpl; lia.
  - destruct ((chr a =? chr "010") || (chr a =? chr "013")).
    + unfold cur_mu; simpl. rewrite chr_not_EOF. lia.
    + lia.
Qed.

(** The body of [gettok] at end of input returns [tok_eof] and leaves the
    cursor alone; anywhere else it consumes at least one character. *)
Lemma gettok_body_mu st :
  match gettok_body st with
  | Emit tok st' =>
      (LastChar st = EOF -> tok = tok_eof /\ cursor st' = cursor st) /\
      (LastChar st <> EOF -> (mu st' < mu st)%nat)
  | Restart st' => LastChar st <> EOF /\ (mu st' < mu st)%nat
  end.
Proof.
  unfold gettok_body, gettok_token, mu, cursor.
  destruct (Z.eq_dec (LastChar st) EOF) as [HE|HE].
  { rewrite HE, skip_space_EOF. simpl. split; [auto|congruence]. }
  pose proof (cur_mu_skip_space (LastChar st) (stdin st)) as Hs.
  pose proof (skip_space_not_space (LastChar st) (stdin st)) as Hn.
  assert (Hm : (cur_mu (LastChar st, stdin st) = S (String.length (stdin st)))%nat).
  { unfold cur_mu; simpl. apply Z.eqb_neq in HE. rewrite HE. lia. }
  destruct (skip_space (LastChar st) (stdin st)) as [c inp] eqn:Ek; simpl in Hn.
  assert (Hc : c <> EOF -> (String.length inp < cur_mu (LastChar st, stdin st))%nat).
  { intros Hc. unfold cur_mu in Hs at 1; simpl in Hs.
    apply Z.eqb_neq in Hc. rewrite Hc in Hs. lia. }
  destruct (isalpha c) eqn:Ea.
  { pose proof (cur_mu_read_identifier (String (to_char c) EmptyString) inp) as Hr.
    destruct (read_identifier _ inp) as [id cur]; simpl in Hr.
    assert (c <> EOF) by (intros ->; discriminate).
    repeat match goal with |- context [if ?b then _ else _] => destruct b end;
      simpl; (split; [congruence|]); intros _; destruct cur; simpl in *; lia. }
  destruct (isdigit c || (c =? chr ".")) eqn:Ed.
  { pose proof (cur_mu_read_number EmptyString c inp) as Hr.
    destruct (read_number _ c inp) as [s cur]; simpl in Hr.
    assert (c <> EOF) by (intros ->; discriminate).
    simpl; (split; [congruence|]); intros _; destruct cur; simpl in *; lia. }
  destruct (c =? chr "#") eqn:Eh.
  { pose proof (cur_mu_skip_comment inp) as Hr.
    assert (c <> EOF) by (intros ->; discriminate).
    destruct (skip_comment inp) as [c' inp']; simpl.
    destruct (negb (c' =? EOF)); simpl; [split; [auto|lia]|].
    split; [congruence|]. intros _. lia. }
  destruct (c =? EOF) eqn:Ee.
  { simpl. split; [congruence|]. intros _. apply Z.eqb_eq in Ee; subst c.
    destruct (isspace (LastChar st)) eqn:Es.
    - apply (cur_mu_skip_space_lt _ (stdin st)) in Es. rewrite Ek in Es. exact Es.
    - rewrite (skip_space_id _ _ Es) in Ek. congruence. }
  apply Z.eqb_neq in Ee. pose proof (cur_mu_getchar inp) as Hg.
  destruct (getchar inp); simpl. split; [congruence|]. intros _.
  specialize (Hc Ee). lia.
Qed.

Lemma gettok_mu st :
  (LastChar st = EOF -> fst (gettok st) = tok_eof /\ cursor (snd (gettok st)) = cursor st) /\
  (LastChar st <> EOF -> (mu (snd (gettok st)) < mu st)%nat).
Proof.
  remember (mu st) as n eqn:Hn. revert st Hn.
  induction n as [n IH] using lt_wf_ind; intros st ->.
  rewrite gettok_eq. pose proof (gettok_body_mu st) as Hb.
  destruct (gettok_body st) as [tok st'|st']; simpl; [exact Hb|].
  destruct Hb as [Hne Hlt]. split; [congruence|]. intros _.
  destruct (IH _ Hlt st' eq_refl) as [IH1 IH2].
  destruct (Z.eq_dec (LastChar st') EOF) as [HE|HE].
  - destruct (IH1 HE) as [_ Hcur]. unfold mu at 1. rewrite Hcur. exact Hlt.
  - specialize (IH2 HE). lia.
Qed.

Lemma gettok_mu_le st : (mu (snd (gettok st)) <= mu st)%nat.
Proof.
  destruct (gettok_mu st) as [H1 H2].
  destruct (Z.eq_dec (LastChar st) EOF) as [HE|HE].
  - destruct (H1 HE) as [_ Hc]. unfold mu. rewrite Hc. lia.
  - specialize (H2 HE). lia.
Qed.

Lemma gettok_mu_lt st :
  fst (gettok st) <> tok_eof -> (mu (snd (gettok st)) < mu st)%nat.
Proof.
  intros Ht. destruct (gettok_mu st) as [H1 H2].
  destruct (Z.eq_dec (LastChar st) EOF) as [HE|HE]; [|auto].
  destruct (H1 HE); contradiction.
Qed.

(** [static int getNextToken() { return CurTok = gettok(); }] *)
Definition getNextToken (st : State) : Z * State :=
  let '(tok, st) := gettok st in (tok, set_CurTok tok st).

(** The tokens the lexer produces from a state on, up to and including
    [tok_eof], each with the values of [IdentifierStr] and [NumVal] that
    come with it. *)
Equations? tokenize (st : State) : list (Z * string * double)
  by wf (mu st) lt :=
  tokenize st with inspect (gettok st) => {
    | exist _ (tok, st') _ with inspect (tok =? tok_eof) => {
        | exist _ true _ => [(tok, IdentifierStr st', NumVal st')]
        | exist _ false _ =>
            (tok, IdentifierStr st', NumVal st') :: tokenize st' } }.
Proof.
  pose proof (gettok_mu_lt st) as H. rewrite e in H. simpl in H.
  apply H. apply Z.eqb_neq. auto.
Qed.

Lemma tokenize_eq st :
  tokenize st =
  let '(tok, st') := gettok st in
  if tok =? tok_eof then [(tok, IdentifierStr st', NumVal st')]
  else (tok, IdentifierStr st', NumVal st') :: tokenize st'.
Proof. funelim (tokenize st); rewrite e; rewrite e0; reflexivity. Qed.

(** ** The abstract syntax tree *)

Inductive ExprAST :=
| NumberExprAST (Val : double)
| VariableExprAST (Name : string)
| BinaryExprAST (Op : ascii) (LHS RHS : ExprAST)
| CallExprAST (Callee : string) (Args : list ExprAST).

Record PrototypeAST := mkPrototypeAST {
  Name : string;
  Args : list string
}.

Record FunctionAST := mkFunctionAST {
  Proto : PrototypeAST;
  Body : ExprAST
}.

(** ** The parser

    A [std::unique_ptr] result is an [option]: [None] is [nullptr].  The
    functions that call each other recursively take a bound on the depth of
    the calls; they answer [None] (at the outer level) when the bound is
    reached, which is no outcome of the program. *)

Definition NL : string := String "010" EmptyString.

(** [fprintf(stderr, "Error: %s\n", Str); return nullptr;] *)
Definition LogError {A : Type} (Str : string) (st : State) : option A * State :=
  (None, fputs_stderr ("Error: " +:+ Str +:+ NL) st).

Definition LogErrorProto (Str : string) (st : State)
  : option PrototypeAST * State :=
  (None, snd (LogError (A := ExprAST) Str st)).

Definition ParseNumberExpr (st : State) : option ExprAST * State :=
  let Result := NumberExprAST (NumVal st) in
  let '(_, st) := getNextToken st in
  (Some Result, st).

(** [BinopPrecedence[CurTok]]: the subscript operator of [std::map] adds a
    value-initialized entry when the key has none. *)
Definition map_subscript (k : ascii) (m : gmap ascii Z) : Z * gmap ascii Z :=
  match m !! k with
  | Some v => (v, m)
  | None => (0, <[k := 0]> m)
  end.

Definition GetTokPrecedence (st : State) : Z * State :=
  if negb (isascii (CurTok st)) then (-1, st)
  else
    let '(TokPrec, m) := map_subscript (to_char (CurTok st)) (BinopPrecedence st) in
    let st := set_BinopPrecedence m st in
    if TokPrec <=? 0 then (-1, st) else (TokPrec, st).

Fixpoint ParsePrimary (fuel : nat) (st : State) {struct fuel}
  : option (option ExprAST * State) :=
  match fuel with
  | O => None
  | S fuel =>
      if CurTok st =? tok_identifier then ParseIdentifierExpr fuel st
      else if CurTok st =? tok_number then Some (ParseNumberExpr st)
      else if CurTok st =? chr "(" then ParseParenExpr fuel st
      else Some (LogError "Unknown token: expected an expression" st)
  end

with ParseParenExpr (fuel : nat) (st : State) {struct fuel}
  : option (option ExprAST * State) :=
  match fuel with
  | O => None
  | S fuel =>
      let '(_, st) := getNextToken st in
      match ParseExpression fuel st with
      | None => None
      | Some (None, st) => Some (None, st)
      | Some (Some V, st) =>
          if negb (CurTok st =? chr ")") then Some (LogError "expected ')'" st)
          else let '(_, st) := getNextToken st in Some (Some V, st)
      end
  end

with ParseIdentifierExpr (fuel : nat) (st : State) {struct fuel}
  : option (option ExprAST * State) :=
  match fuel with
  | O => None
  | S fuel =>
      let IdName := IdentifierStr st in
      let '(_, st) := getNextToken st in
      if negb (CurTok st =? chr "(") then Some (Some (VariableExprAST IdName), st)
      else
        let '(_, st) := getNextToken st in
        let args :=
          if negb (CurTok st =? chr ")") then ParseIdentifierExpr_args fuel [] st
          else Some (Some [], st) in
        match args with
        | None => None
        | Some (None, st) => Some (None, st)
        | Some (Some Args, st) =>
            let '(_, st) := getNextToken st in
            Some (Some (CallExprAST IdName Args), st)
        end
  end

(** The [while (true)] loop of [ParseIdentifierExpr]; it leaves at the [')']
    that ends the arguments, or with [nullptr]. *)
with ParseIdentifierExpr_args (fuel : nat) (Args : list ExprAST) (st : State)
  {struct fuel} : option (option (list ExprAST) * State) :=
  match fuel with
  | O => None
  | S fuel =>
      match ParseExpression fuel st with
      | None => None
      | Some (None, st) => Some (None, st)
      | Some (Some Arg, st) =>
          let Args := Args ++ [Arg] in
          if CurTok st =? chr ")" then Some (Some Args, st)
          else if negb (CurTok st =? chr ",") then
            Some (LogError "Expected ')' or ',' in argument list" st)
          else
            let '(_, st) := getNextToken st in
            ParseIdentifierExpr_args fuel Args st
      end
  end

with ParseExpression (fuel : nat) (st : State) {struct fuel}
  : option (option ExprAST * State) :=
  match fuel with
  | O => None
  | S fuel =>
      match ParsePrimary fuel st with
      | None => None
      | Some (None, st) => Some (None, st)
      | Some (Some LHS, st) => ParseBinOpRHS fuel 0 LHS st
      end
  end

(** The precedences in the table are small, so [TokPrec + 1] is computed
    without overflow. *)
with ParseBinOpRHS (fuel : nat) (ExprPrec : Z) (LHS : ExprAST) (st : State)
  {struct fuel} : option (option ExprAST * State) :=
  match fuel with
  | O => None
  | S fuel =>
      let '(TokPrec, st) := GetTokPrecedence st in
      if TokPrec <? ExprPrec then Some (Some LHS, st)
      else
        let BinOp := CurTok st in
        let '(_, st) := getNextToken st in
        match ParsePrimary fuel st with
        | None => None
        | Some (None, st) => Some (None, st)
        | Some (Some RHS, st) =>
            let '(NextPrec, st) := GetTokPrecedence st in
            let rhs :=
              if TokPrec <? NextPrec then ParseBinOpRHS fuel (TokPrec + 1) RHS st
              else Some (Some RHS, st) in
            match rhs with
            | None => None
            | Some (None, st) => Some (None, st)
            | Some (Some RHS, st) =>
                ParseBinOpRHS fuel ExprPrec (BinaryExprAST (to_char BinOp) LHS RHS) st
            end
        end
  end.

Lemma getNextToken_mu_lt st :
  fst (getNextToken st) <> tok_eof -> (mu (snd (getNextToken st)) < mu st)%nat.
Proof.
  unfold getNextToken. pose proof (gettok_mu_lt st) as H.
  destruct (gettok st) as [tok st']; simpl in *. exact H.
Qed.

(** [while (getNextToken() == tok_identifier) ArgNames.push_back(IdentifierStr);] *)
Equations? ParsePrototype_args (ArgNames : list string) (st : State)
  : list string * State by wf (mu st) lt :=
  ParsePrototype_args ArgNames st with inspect (getNextToken st) => {
    | exist _ (tok, st') _ with inspect (tok =? tok_identifier) => {
        | exist _ true _ => ParsePrototype_args (ArgNames ++ [IdentifierStr st']) st'
        | exist _ false _ => (ArgNames, st') } }.
Proof.
  pose proof (getNextToken_mu_lt st) as H. rewrite e in H. simpl in H.
  apply H. apply Z.eqb_eq in e0. subst tok. discriminate.
Qed.

Lemma ParsePrototype_args_eq ArgNames st :
  ParsePrototype_args ArgNames st =
  let '(tok, st') := getNextToken st in
  if tok =? tok_identifier
  then ParsePrototype_args (ArgNames ++ [IdentifierStr st']) st'
  else (ArgNames, st').
Proof. funelim (ParsePrototype_args ArgNames st); rewrite e; rewrite e0; reflexivity. Qed.

Definition ParsePrototype (st : State) : option PrototypeAST * State :=
  if negb (CurTok st =? tok_identifier) then
    LogErrorProto "Expected function name in prototype" st
  else
    let FnName := IdentifierStr st in
    let '(_, st) := getNextToken st in
    if negb (CurTok st =? chr "(") then
      LogErrorProto "Expected '(' in prototype" st
    else
      let '(ArgNames, st) := ParsePrototype_args [] st in
      if negb (CurTok st =? chr ")") then
        LogErrorProto "Expected ')' in prototype" st
      else
        let '(_, st) := getNextToken st in
        (Some (mkPrototypeAST FnName ArgNames), st).

Definition ParseDefinition (fuel : nat) (st : State)
  : option (option FunctionAST * State) :=
  let '(_, st) := getNextToken st in
  match ParsePrototype st with
  | (None, st) => Some (None, st)
  | (Some Proto, st) =>
      match ParseExpression fuel st with
      | None => None
      | Some (Some E, st) => Some (Some (mkFunctionAST Proto E), st)
      | Some (None, st) => Some (None, st)
      end
  end.

Definition ParseExtern (st : State) : option PrototypeAST * State :=
  let '(_, st) := getNextToken st in
  ParsePrototype st.

Definition ParseTopLevelExpr (fuel : nat) (st : State)
  : option (option FunctionAST * State) :=
  match ParseExpression fuel st with
  | None => None
  | Some (Some E, st) =>
      let Proto := mkPrototypeAST "" [] in
      Some (Some (mkFunctionAST Proto E), st)
  | Some (None, st) => Some (None, st)
  end.

(** ** Start of a session

    The globals as the program starts with them, on a given standard input,
    and [main] up to its call of [MainLoop]: it fills the precedence table,
    prints the first prompt and reads the first token. *)

Definition initial_State (input : string) : State :=
  mkState input (chr " ") EmptyString (S754_zero false) 0 ∅ EmptyString.

Definition main_init (input : string) : State :=
  let st := initial_State input in
  let st := set_BinopPrecedence (<["<"%char := 10]> (BinopPrecedence st)) st in
  let st := set_BinopPrecedence (<["+"%char := 20]> (BinopPrecedence st)) st in
  let st := set_BinopPrecedence (<["-"%char := 30]> (BinopPrecedence st)) st in
  let st := set_BinopPrecedence (<["*"%char := 40]> (BinopPrecedence st)) st in
  let st := fputs_stderr "> " st in
  snd (getNextToken st).

(** ** The driver

    The three handlers and the loop of [main].  A handler prints its status
    line when the parse gave a result and otherwise skips one token.  The
    loop takes the bound on the depth that the parsing functions take, and
    uses one unit of it for each turn. *)

Definition HandleDefinition (fuel : nat) (st : State) : option State :=
  match ParseDefinition fuel st with
  | None => None
  | Some (Some _, st) =>
      Some (fputs_stderr ("Parsed a function definition." +:+ NL) st)
  | Some (None, st) => Some (snd (getNextToken st))
  end.

Definition HandleExtern (st : State) : State :=
  match ParseExtern st with
  | (Some _, st) => fputs_stderr ("Parsed an extern." +:+ NL) st
  | (None, st) => snd (getNextToken st)
  end.

Definition HandleTopLevelExpression (fuel : nat) (st : State) : option State :=
  match ParseTopLevelExpr fuel st with
  | None => None
  | Some (Some _, st) => Some (fputs_stderr ("Parsed a top-level expr." +:+ NL) st)
  | Some (None, st) => Some (snd (getNextToken st))
  end.

Fixpoint MainLoop (fuel : nat) (st : State) {struct fuel} : option State :=
  match fuel with
  | O => None
  | S fuel =>
      let st := fputs_stderr "> " st in
      if CurTok st =? tok_eof then Some st
      else if CurTok st =? chr ";" then MainLoop fuel (snd (getNextToken st))
      else if CurTok st =? tok_def then
        match HandleDefinition fuel st with
        | None => None
        | Some st => MainLoop fuel st
        end
      else if CurTok st =? tok_extern then MainLoop fuel (HandleExtern st)
      else
        match HandleTopLevelExpression fuel st with
        | None => None
        | Some st => MainLoop fuel st
        end
  end.

(** [main], on a given standard input; the result is the state in which it
    returns. *)
Definition main (fuel : nat) (input : string) : option State :=
  MainLoop fuel (main_init input).

(** * What the statements are made of *)

(** ** Results of the functions that take a depth bound *)

(** A call "returns [r]" when it does so for every large enough bound. *)
Definition returns {R : Type} (f : nat -> option R) (r : R) : Prop :=
  exists n, forall fuel, (n <= fuel)%nat -> f fuel = Some r.

Definition monotone {R : Type} (f : nat -> option R) : Prop :=
  forall n m r, (n <= m)%nat -> f n = Some r -> f m = Some r.

(** ** Input left to read

    [nu] counts what is left for the parser: the characters the lexer still
    has, and the token in [CurTok] unless it is [tok_eof]. *)

Definition nu (st : State) : nat :=
  (mu st + (if (CurTok st =? tok_eof)%Z then 0 else 1))%nat.

(** ** The precedence table *)

(** What [m[k]] reads: the value of the entry, or the zero of the entry that
    the subscript creates. *)
Definition precedence (m : gmap ascii Z) (k : ascii) : Z := default 0 (m !! k).

(** [m'] is [m] with, possibly, more keys, all of them mapped to zero. *)
Definition table_grows (m m' : gmap ascii Z) : Prop :=
  m ⊆ m' /\ forall k, precedence m' k = precedence m k.

Abbreviation grows st st' :=
  (table_grows (BinopPrecedence st) (BinopPrecedence st')).

(** The table holds what [main] put in it, and zeros. *)
Definition initialized (st : State) : Prop :=
  forall k, precedence (BinopPrecedence st) k =
            precedence (BinopPrecedence (main_init EmptyString)) k.

(** ** Trees and numbers *)

(** [t] is [l] itself, or a binary operation that has [l] at the bottom of
    its chain of left operands. *)
Inductive left_spine (l : ExprAST) : ExprAST -> Prop :=
| spine_here : left_spine l l
| spine_left Op t RHS : left_spine l t -> left_spine l (BinaryExprAST Op t RHS).

(** The binary64 number that an integer denotes. *)
Definition double_of_Z (n : Z) : double := binary_normalize prec emax n 0 false.

(** The state in which [ParseExpression] enters the operator loop: the
    first primary of the input has been read. *)
Definition after_primary (input : string) : State :=
  match ParsePrimary 3 (main_init input) with
  | Some (_, st) => st
  | None => main_init input
  end.

(** ** Characters of a string *)

Fixpoint all_chars (P : ascii -> bool) (s : string) : bool :=
  match s with
  | EmptyString => true
  | String a s' => P a && all_chars P s'
  end.

(** A digit or ['.']: what the number loop of [gettok] takes. *)
Definition numeric (a : ascii) : bool := isdigit (chr a) || (chr a =? chr ".").

(** The characters at which [gettok] ends a comment. *)
Definition is_eol (a : ascii) : bool :=
  (chr a =? chr "010") || (chr a =? chr "013").

Definition no_eol (s : string) : bool := all_chars (fun a => negb (is_eol a)) s.

(** [s] is the rest of the input from the end of a comment on: nothing, or
    a line that ends here. *)
Definition at_eol (s : string) : bool :=
  match s with
  | EmptyString => true
  | String a _ => is_eol a
  end.

(** ** What the parser does to the globals

    One step: it reads a token, or looks a precedence up, or prints. *)

Inductive step : State -> State -> Prop :=
| step_token st : step st (snd (getNextToken st))
| step_prec st : step st (snd (GetTokPrecedence st))
| step_print s st : step st (fputs_stderr s st).

(** ** Diagnostics *)

Definition error_line (msg : string) : string := "Error: " +:+ msg +:+ NL.

Definition expression_errors : list string :=
  [ "Unknown token: expected an expression";
    "expected ')'";
    "Expected ')' or ',' in argument list" ]%string.

Definition prototype_errors : list string :=
  [ "Expected function name in prototype";
    "Expected '(' in prototype";
    "Expected ')' in prototype" ]%string.

(** A result comes with nothing printed, a [nullptr] with one error line,
    out of [msgs]. *)
Definition reported {A : Type} (msgs : list string) (st : State)
  (r : option A) (st' : State) : Prop :=
  match r with
  | Some _ => stderr st' = stderr st
  | None => exists msg, In msg msgs /\ stderr st' = stderr st +:+ error_line msg
  end.

(** ** Operators of a tree *)

Fixpoint operators (e : ExprAST) : list ascii :=
  match e with
  | NumberExprAST _ | VariableExprAST _ => []
  | BinaryExprAST Op LHS RHS => Op :: operators LHS ++ operators RHS
  | CallExprAST _ Args =>
      (fix of_args (l : list ExprAST) : list ascii :=
         match l with
         | [] => []
         | a :: l' => operators a ++ of_args l'
         end) Args
  end.

(** [Op] has a positive precedence in the table of [st]. *)
Definition registered (st : State) (Op : ascii) : Prop :=
  0 < precedence (BinopPrecedence st) Op.

(** ** The cursor of the lexer

    [getchar] keeps answering [EOF] once the input is used up, so [LastChar]
    is [EOF] only when nothing is left; and [CurTok] is [tok_eof] only when
    [LastChar] is [EOF]. *)

Definition cursor_ok (cur : Z * string) : Prop :=
  -1 <= fst cur <= 255 /\ (fst cur = EOF -> snd cur = EmptyString).

Definition session_ok (st : State) : Prop :=
  cursor_ok (cursor st) /\ (CurTok st = tok_eof -> LastChar st = EOF).

(** ** Statements proved for all the parsing functions at once

    The functions of the parser are mutually recursive, so a property of one
    is proved together with the same property of the others, by induction on
    the depth bound. *)

(** A result obtained with one bound is obtained with every larger one. *)
Definition mono_at (fuel : nat) : Prop :=
  (forall fuel' st r, (fuel <= fuel')%nat ->
     ParsePrimary fuel st = Some r -> ParsePrimary fuel' st = Some r) /\
  (forall fuel' st r, (fuel <= fuel')%nat ->
     ParseParenExpr fuel st = Some r -> ParseParenExpr fuel' st = Some r) /\
  (forall fuel' st r, (fuel <= fuel')%nat ->
     ParseIdentifierExpr fuel st = Some r -> ParseIdentifierExpr fuel' st = Some r) /\
  (forall fuel' a st r, (fuel <= fuel')%nat ->
     ParseIdentifierExpr_args fuel a st = Some r ->
     ParseIdentifierExpr_args fuel' a st = Some r) /\
  (forall fuel' st r, (fuel <= fuel')%nat ->
     ParseExpression fuel st = Some r -> ParseExpression fuel' st = Some r) /\
  (forall fuel' p l st r, (fuel <= fuel')%nat ->
     ParseBinOpRHS fuel p l st = Some r -> ParseBinOpRHS fuel' p l st = Some r).

(** With a bound large enough for what is left to read, the call returns,
    and leaves no more to read than there was. *)
Definition terminates_at (fuel : nat) : Prop :=
  (forall st, (4 * nu st + 2 <= fuel)%nat ->
     exists r st', ParsePrimary fuel st = Some (r, st') /\ (nu st' <= nu st)%nat) /\
  (forall st, CurTok st <> tok_eof -> (4 * nu st + 1 <= fuel)%nat ->
     exists r st', ParseParenExpr fuel st = Some (r, st') /\ (nu st' <= nu st)%nat) /\
  (forall st, CurTok st <> tok_eof -> (4 * nu st + 1 <= fuel)%nat ->
     exists r st', ParseIdentifierExpr fuel st = Some (r, st') /\ (nu st' <= nu st)%nat) /\
  (forall a st, (4 * nu st + 4 <= fuel)%nat ->
     exists r st', ParseIdentifierExpr_args fuel a st = Some (r, st') /\
                   (nu st' <= nu st)%nat) /\
  (forall st, (4 * nu st + 3 <= fuel)%nat ->
     exists r st', ParseExpression fuel st = Some (r, st') /\ (nu st' <= nu st)%nat) /\
  (forall p l st, 0 <= p -> (4 * nu st + 1 <= fuel)%nat ->
     exists r st', ParseBinOpRHS fuel p l st = Some (r, st') /\ (nu st' <= nu st)%nat).

(** A call only adds zero entries to the precedence table. *)
Definition grows_at (fuel : nat) : Prop :=
  (forall st r st', ParsePrimary fuel st = Some (r, st') -> grows st st') /\
  (forall st r st', ParseParenExpr fuel st = Some (r, st') -> grows st st') /\
  (forall st r st', ParseIdentifierExpr fuel st = Some (r, st') -> grows st st') /\
  (forall a st r st', ParseIdentifierExpr_args fuel a st = Some (r, st') ->
                      grows st st') /\
  (forall st r st', ParseExpression fuel st = Some (r, st') -> grows st st') /\
  (forall p l st r st', ParseBinOpRHS fuel p l st = Some (r, st') -> grows st st').

(** The globals that [gettok] does not touch. *)
Definition parser_globals (st : State) : Z * gmap ascii Z * string :=
  (CurTok st, BinopPrecedence st, stderr st).

(** What a token returned by [gettok] can be, with the state it comes in. *)
Definition token_ok (tok : Z) (st' : State) : Prop :=
  cursor_ok (cursor st') /\
  -5 <= tok <= 255 /\
  (tok = tok_eof -> LastChar st' = EOF /\ stdin st' = EmptyString) /\
  (0 <= tok ->
   isspace tok = false /\ isalnum tok = false /\
   tok <> chr "." /\ tok <> chr "#").

(** The state in which a call returned. *)
Definition final_state {A : Type} (x : option (A * State)) : State :=
  match x with
  | Some (_, st) => st
  | None => initial_State EmptyString
  end.

Definition operators_of_args (l : list ExprAST) : list ascii :=
  concat (map operators l).

Abbreviation steps := (rtc step).

(** A call changes the globals by steps. *)
Definition steps_at (fuel : nat) : Prop :=
  (forall st r st', ParsePrimary fuel st = Some (r, st') -> steps st st') /\
  (forall st r st', ParseParenExpr fuel st = Some (r, st') -> steps st st') /\
  (forall st r st', ParseIdentifierExpr fuel st = Some (r, st') -> steps st st') /\
  (forall a st r st', ParseIdentifierExpr_args fuel a st = Some (r, st') ->
                      steps st st') /\
  (forall st r st', ParseExpression fuel st = Some (r, st') -> steps st st') /\
  (forall p l st r st', ParseBinOpRHS fuel p l st = Some (r, st') -> steps st st').

(** A call reports as it should. *)
Definition reported_at (fuel : nat) : Prop :=
  (forall st r st', ParsePrimary fuel st = Some (r, st') ->
                    reported expression_errors st r st') /\
  (forall st r st', ParseParenExpr fuel st = Some (r, st') ->
                    reported expression_errors st r st') /\
  (forall st r st', ParseIdentifierExpr fuel st = Some (r, st') ->
                    reported expression_errors st r st') /\
  (forall a st r st', ParseIdentifierExpr_args fuel a st = Some (r, st') ->
                      reported expression_errors st r st') /\
  (forall st r st', ParseExpression fuel st = Some (r, st') ->
                    reported expression_errors st r st') /\
  (forall p l st r st', ParseBinOpRHS fuel p l st = Some (r, st') ->
                        reported expression_errors st r st').

(** * Properties *)

(** ** The depth bound does not matter once it is large enough *)

Ltac case_call :=
  match goal with
  | H : match ?f with _ => _ end = Some _ |- _ =>
      let E := fresh "E" in
      destruct f as [[[?|] ?]|] eqn:E; try discriminate
  end.

Lemma fuel_mono fuel : mono_at fuel.
Proof.
  induction fuel as [|fuel (IHp & IHpa & IHi & IHa & IHe & IHb)];
    [repeat split; intros; discriminate|].
  repeat split; intros fuel'; intros;
    (destruct fuel' as [|fuel']; [lia|]);
    assert (fuel <= fuel')%nat by lia;
    match goal with H : _ = Some _ |- _ => simpl in H |- * end.
  - repeat match goal with
           | H : (if ?b then _ else _) = Some _ |- _ => destruct b
           end; eauto.
  - destruct (getNextToken st) as [? st1].
    case_call; erewrite IHe by eauto; simpl; auto.
  - destruct (getNextToken st) as [? st1].
    destruct (negb (CurTok st1 =? chr "(")); auto.
    destruct (getNextToken st1) as [? st2].
    destruct (negb (CurTok st2 =? chr ")")); auto.
    case_call; erewrite IHa by eauto; simpl; auto.
  - case_call; erewrite IHe by eauto; simpl; auto.
    destruct (CurTok s =? chr ")"); auto.
    destruct (negb (CurTok s =? chr ",")); auto.
    destruct (getNextToken s); simpl in *; eauto.
  - case_call; erewrite IHp by eauto; simpl; eauto.
  - destruct (GetTokPrecedence st) as [TokPrec st0].
    destruct (TokPrec <? p); auto.
    destruct (getNextToken st0) as [? st1].
    case_call; erewrite IHp by eauto; simpl; auto.
    destruct (GetTokPrecedence s) as [NextPrec st3].
    destruct (TokPrec <? NextPrec).
    + case_call; erewrite IHb by eauto; simpl; simpl in *; eauto.
    + simpl in *; eauto.
Qed.

Lemma returns_intro {R V : Type} (f : nat -> option R) (g : R -> V) n v :
  monotone f -> option_map g (f n) = Some v ->
  returns (fun fuel => option_map g (f fuel)) v.
Proof.
  intros Hm E. exists n. intros fuel Hle.
  destruct (f n) as [r|] eqn:En; [|discriminate].
  rewrite (Hm _ _ _ Hle En). exact E.
Qed.

Lemma ParsePrimary_monotone st : monotone (fun fuel => ParsePrimary fuel st).
Proof. intros n m r Hle H. eapply (fuel_mono n); eauto. Qed.

Lemma ParseIdentifierExpr_monotone st :
  monotone (fun fuel => ParseIdentifierExpr fuel st).
Proof. intros n m r Hle H. eapply (fuel_mono n); eauto. Qed.

Lemma ParseExpression_monotone st : monotone (fun fuel => ParseExpression fuel st).
Proof. intros n m r Hle H. eapply (fuel_mono n); eauto. Qed.

Lemma ParseDefinition_monotone st : monotone (fun fuel => ParseDefinition fuel st).
Proof.
  intros n m r Hle. unfold ParseDefinition.
  destruct (getNextToken st) as [? st1].
  destruct (ParsePrototype st1) as [[P|] st2]; auto.
  destruct (ParseExpression n st2) as [[[E|] st3]|] eqn:En; try discriminate;
    rewrite (ParseExpression_monotone _ _ _ _ Hle En); auto.
Qed.

(** ** Every parse consumes input *)

Lemma getNextToken_nu st :
  (nu (snd (getNextToken st)) <= nu st)%nat /\
  (CurTok st <> tok_eof -> (nu (snd (getNextToken st)) < nu st)%nat).
Proof.
  unfold nu, getNextToken.
  pose proof (gettok_mu st) as [H1 H2]. pose proof (gettok_mu_le st) as Hle.
  destruct (gettok st) as [tok st']; simpl in *.
  change (mu (set_CurTok tok st')) with (mu st').
  destruct (Z.eq_dec (LastChar st) EOF) as [HE|HE].
  - destruct (H1 HE) as [-> Hc]. simpl.
    destruct (CurTok st =? tok_eof) eqn:E; split; try lia;
      apply Z.eqb_eq in E; congruence.
  - specialize (H2 HE).
    destruct (tok =? tok_eof); destruct (Z.eqb_spec (CurTok st) tok_eof);
      split; try lia; intros; contradiction.
Qed.

Lemma getNextToken_nu_le st st' tok :
  getNextToken st = (tok, st') -> (nu st' <= nu st)%nat.
Proof. intros H. pose proof (getNextToken_nu st) as [Hle _]. rewrite H in Hle. exact Hle. Qed.

Lemma getNextToken_nu_lt st st' tok :
  getNextToken st = (tok, st') -> CurTok st <> tok_eof -> (nu st' < nu st)%nat.
Proof. intros H. pose proof (getNextToken_nu st) as [_ Hlt]. rewrite H in Hlt. exact Hlt. Qed.

Lemma GetTokPrecedence_frame st :
  let st' := snd (GetTokPrecedence st) in
  stdin st' = stdin st /\ LastChar st' = LastChar st /\
  IdentifierStr st' = IdentifierStr st /\ NumVal st' = NumVal st /\
  CurTok st' = CurTok st /\ stderr st' = stderr st.
Proof.
  unfold GetTokPrecedence.
  destruct (negb (isascii (CurTok st))); simpl; [repeat split; reflexivity|].
  destruct (map_subscript (to_char (CurTok st)) (BinopPrecedence st)) as [p m].
  destruct (p <=? 0); simpl; repeat split; reflexivity.
Qed.

Lemma GetTokPrecedence_nu st p st' :
  GetTokPrecedence st = (p, st') -> nu st' = nu st /\ CurTok st' = CurTok st.
Proof.
  intros H. pose proof (GetTokPrecedence_frame st) as F. rewrite H in F.
  simpl in F. destruct F as (F1 & F2 & _ & _ & F3 & _).
  unfold nu, mu, cursor. rewrite F1, F2, F3. auto.
Qed.

(** What [GetTokPrecedence] returns is [-1] or positive, and positive only
    for an ASCII token. *)
Lemma GetTokPrecedence_range st :
  fst (GetTokPrecedence st) = -1 \/
  (0 < fst (GetTokPrecedence st) /\ isascii (CurTok st) = true).
Proof.
  unfold GetTokPrecedence. destruct (isascii (CurTok st)); simpl; auto.
  destruct (map_subscript (to_char (CurTok st)) (BinopPrecedence st)) as [p m].
  destruct (p <=? 0) eqn:E; simpl; auto. right. split; [lia|auto].
Qed.

Lemma nu_fputs_stderr s st : nu (fputs_stderr s st) = nu st.
Proof. reflexivity. Qed.

Ltac next_token :=
  match goal with
  | |- context [getNextToken ?s] =>
      let E := fresh "E" in
      let Hle := fresh "Hle" in
      let Hlt := fresh "Hlt" in
      destruct (getNextToken s) as [? ?] eqn:E;
      pose proof (getNextToken_nu_le _ _ _ E) as Hle;
      pose proof (getNextToken_nu_lt _ _ _ E) as Hlt
  end.

Ltac next_prec :=
  match goal with
  | |- context [GetTokPrecedence ?s] =>
      let E := fresh "E" in
      let Hn := fresh "Hn" in
      let Hc := fresh "Hc" in
      let Hr := fresh "Hr" in
      pose proof (GetTokPrecedence_range s) as Hr;
      destruct (GetTokPrecedence s) as [? ?] eqn:E;
      pose proof (GetTokPrecedence_nu _ _ _ E) as [Hn Hc]; simpl in Hr
  end.

Lemma isascii_not_eof t : isascii t = true -> t <> tok_eof.
Proof.
  intros H ->. discriminate.
Qed.

Lemma parse_terminates_at fuel : terminates_at fuel.
Proof.
  induction fuel as [|fuel (IHp & IHpa & IHi & IHa & IHe & IHb)];
    [repeat split; intros; lia|].
  repeat split; intros; simpl.
  - (* ParsePrimary *)
    destruct (CurTok st =? tok_identifier) eqn:E1.
    { apply IHi; [apply Z.eqb_eq in E1; rewrite E1; discriminate|lia]. }
    destruct (CurTok st =? tok_number) eqn:E2.
    { unfold ParseNumberExpr. next_token. eauto. }
    destruct (CurTok st =? chr "(") eqn:E3.
    { apply IHpa; [apply Z.eqb_eq in E3; rewrite E3; discriminate|lia]. }
    eauto.
  - (* ParseParenExpr *)
    next_token. specialize (Hlt H).
    destruct (IHe s) as (r & st1 & -> & Hr); [lia|].
    destruct r as [V|]; [|exists None, st1; split; [auto|lia]].
    destruct (negb (CurTok st1 =? chr ")")).
    + eexists _, _; split; [reflexivity|]. rewrite nu_fputs_stderr. lia.
    + next_token. eexists _, _; split; [reflexivity|]. lia.
  - (* ParseIdentifierExpr *)
    next_token. specialize (Hlt H).
    destruct (negb (CurTok s =? chr "(")).
    { eexists _, _; split; [reflexivity|]. lia. }
    next_token.
    destruct (negb (CurTok s0 =? chr ")")).
    + destruct (IHa [] s0) as (r & st1 & -> & Hr); [lia|].
      destruct r as [args|]; [|exists None, st1; split; [auto|lia]].
      next_token. eexists _, _; split; [reflexivity|]. lia.
    + next_token. eexists _, _; split; [reflexivity|]. lia.
  - (* the argument loop *)
    destruct (IHe st) as (r & st1 & -> & Hr); [lia|].
    destruct r as [Arg|]; [|exists None, st1; split; [auto|lia]].
    destruct (CurTok st1 =? chr ")"); [eexists _, _; split; [reflexivity|lia]|].
    destruct (negb (CurTok st1 =? chr ",")) eqn:Ec.
    { eexists _, _; split; [reflexivity|]. rewrite nu_fputs_stderr. lia. }
    next_token.
    assert (CurTok st1 <> tok_eof).
    { apply negb_false_iff, Z.eqb_eq in Ec. rewrite Ec. discriminate. }
    destruct (IHa (a ++ [Arg]) s) as (r & st2 & -> & Hr2); [lia|].
    exists r, st2; split; [auto|lia].
  - (* ParseExpression *)
    destruct (IHp st) as (r & st1 & -> & Hr); [lia|].
    destruct r as [LHS|]; [|exists None, st1; split; [auto|lia]].
    destruct (IHb 0 LHS st1) as (r & st2 & -> & Hr2); [lia|lia|].
    exists r, st2; split; [auto|lia].
  - (* ParseBinOpRHS *)
    next_prec.
    destruct (z <? p) eqn:Ez; [eexists _, _; split; [reflexivity|lia]|].
    apply Z.ltb_ge in Ez.
    destruct Hr as [Hr|[Hpos Ha]]; [lia|].
    apply isascii_not_eof in Ha. rewrite <- Hc in Ha.
    next_token. specialize (Hlt Ha).
    destruct (IHp s0) as (r & st1 & -> & Hr); [lia|].
    destruct r as [RHS|]; [|exists None, st1; split; [auto|lia]].
    next_prec.
    destruct (z <? z1).
    + destruct (IHb (z + 1) RHS s1) as (r & st2 & -> & Hr2); [lia|lia|].
      destruct r as [RHS'|]; [|exists None, st2; split; [auto|lia]].
      destruct (IHb p (BinaryExprAST (to_char (CurTok s)) l RHS') st2)
        as (r & st3 & -> & Hr3); [lia|lia|].
      exists r, st3; split; [auto|lia].
    + destruct (IHb p (BinaryExprAST (to_char (CurTok s)) l RHS) s1)
        as (r & st3 & -> & Hr3); [lia|lia|].
      exists r, st3; split; [auto|lia].
Qed.

Lemma parse_terminates fuel st :
  (4 * nu st + 3 <= fuel)%nat ->
  exists r st', ParseExpression fuel st = Some (r, st') /\ (nu st' <= nu st)%nat.
Proof. apply (parse_terminates_at fuel). Qed.

(** ** The lexer leaves the parser's globals alone *)

Lemma gettok_body_globals st :
  match gettok_body st with
  | Emit _ st' | Restart st' => parser_globals st' = parser_globals st
  end.
Proof.
  unfold gettok_body, gettok_token.
  destruct (skip_space (LastChar st) (stdin st)) as [c inp].
  destruct (isalpha c).
  { destruct (read_identifier (String (to_char c) EmptyString) inp) as [id cur].
    repeat match goal with |- context [if ?b then _ else _] => destruct b end;
      reflexivity. }
  destruct (isdigit c || (c =? chr ".")).
  { destruct (read_number EmptyString c inp); reflexivity. }
  repeat match goal with |- context [if ?b then _ else _] => destruct b end;
    reflexivity.
Qed.

Lemma gettok_globals st : parser_globals (snd (gettok st)) = parser_globals st.
Proof.
  remember (String.length (stdin st)) as n eqn:Hn. revert st Hn.
  induction n as [n IH] using lt_wf_ind; intros st ->.
  rewrite gettok_eq. pose proof (gettok_body_globals st) as Hb.
  destruct (gettok_body st) as [tok st'|st'] eqn:E; simpl; [exact Hb|].
  rewrite (IH _ (gettok_body_Restart _ _ E) st' eq_refl). exact Hb.
Qed.

Lemma getNextToken_BinopPrecedence st :
  BinopPrecedence (snd (getNextToken st)) = BinopPrecedence st.
Proof.
  unfold getNextToken. pose proof (gettok_globals st) as H.
  destruct (gettok st) as [tok st']; simpl in *.
  unfold parser_globals in H. congruence.
Qed.

(** ** The precedence table *)

Lemma table_grows_refl m : table_grows m m.
Proof. split; [reflexivity|auto]. Qed.

Lemma table_grows_trans m1 m2 m3 :
  table_grows m1 m2 -> table_grows m2 m3 -> table_grows m1 m3.
Proof.
  intros [S1 P1] [S2 P2]. split; [etrans; eauto|].
  intros k. rewrite P2. apply P1.
Qed.

Lemma map_subscript_fst k m : fst (map_subscript k m) = precedence m k.
Proof. unfold map_subscript, precedence. destruct (m !! k); reflexivity. Qed.

Lemma map_subscript_snd k m :
  snd (map_subscript k m) = match m !! k with Some _ => m | None => <[k := 0]> m end.
Proof. unfold map_subscript. destruct (m !! k); reflexivity. Qed.

Lemma map_subscript_grows k m : table_grows m (snd (map_subscript k m)).
Proof.
  rewrite map_subscript_snd. destruct (m !! k) as [v|] eqn:E;
    [apply table_grows_refl|].
  split; [apply insert_subseteq; exact E|].
  intros j. unfold precedence. destruct (decide (k = j)) as [->|Hne].
  - rewrite lookup_insert_eq, E. reflexivity.
  - rewrite lookup_insert_ne by exact Hne. reflexivity.
Qed.

Lemma GetTokPrecedence_fst st :
  fst (GetTokPrecedence st) =
  if negb (isascii (CurTok st)) then -1
  else let p := precedence (BinopPrecedence st) (to_char (CurTok st)) in
       if p <=? 0 then -1 else p.
Proof.
  unfold GetTokPrecedence. destruct (negb (isascii (CurTok st))); [reflexivity|].
  rewrite <- map_subscript_fst.
  destruct (map_subscript (to_char (CurTok st)) (BinopPrecedence st)) as [p m].
  simpl. destruct (p <=? 0); reflexivity.
Qed.

Lemma GetTokPrecedence_BinopPrecedence st :
  BinopPrecedence (snd (GetTokPrecedence st)) =
  if isascii (CurTok st)
  then snd (map_subscript (to_char (CurTok st)) (BinopPrecedence st))
  else BinopPrecedence st.
Proof.
  unfold GetTokPrecedence. destruct (isascii (CurTok st)); [|reflexivity].
  simpl. destruct (map_subscript (to_char (CurTok st)) (BinopPrecedence st)) as [p m].
  simpl. destruct (p <=? 0); reflexivity.
Qed.

Lemma GetTokPrecedence_grows st :
  table_grows (BinopPrecedence st) (BinopPrecedence (snd (GetTokPrecedence st))).
Proof.
  rewrite GetTokPrecedence_BinopPrecedence.
  destruct (isascii (CurTok st)); [apply map_subscript_grows|apply table_grows_refl].
Qed.

(** The token is looked up in the table as it is now, so a second call
    answers as the first. *)
Lemma GetTokPrecedence_again st :
  GetTokPrecedence (snd (GetTokPrecedence st)) = GetTokPrecedence st.
Proof.
  unfold GetTokPrecedence at 2 3.
  destruct (negb (isascii (CurTok st))) eqn:Ea; [simpl; unfold GetTokPrecedence; rewrite Ea; reflexivity|].
  unfold map_subscript.
  destruct (BinopPrecedence st !! to_char (CurTok st)) as [v|] eqn:E.
  - assert (set_BinopPrecedence (BinopPrecedence st) st = st) as -> by (destruct st; reflexivity).
    destruct (v <=? 0) eqn:Ev; simpl; unfold GetTokPrecedence, map_subscript;
      rewrite Ea, E; simpl; rewrite Ev;
      (assert (set_BinopPrecedence (BinopPrecedence st) st = st) as -> by (destruct st; reflexivity));
      reflexivity.
  - simpl. unfold GetTokPrecedence, map_subscript. simpl. rewrite Ea.
    rewrite lookup_insert_eq. simpl. reflexivity.
Qed.

Lemma getNextToken_grows st tok st' : getNextToken st = (tok, st') -> grows st st'.
Proof.
  intros E. pose proof (getNextToken_BinopPrecedence st) as H.
  rewrite E in H. simpl in H. rewrite H. apply table_grows_refl.
Qed.

Lemma GetTokPrecedence_grows' st p st' : GetTokPrecedence st = (p, st') -> grows st st'.
Proof.
  intros E. pose proof (GetTokPrecedence_grows st) as H. rewrite E in H. exact H.
Qed.

Ltac chain :=
  solve [ apply table_grows_refl
        | eassumption
        | eapply table_grows_trans; [eassumption | chain] ].

Ltac table_step :=
  match goal with
  | H : context [getNextToken ?s] |- _ =>
      let E := fresh "E" in
      destruct (getNextToken s) as [? ?] eqn:E;
      apply getNextToken_grows in E
  | H : context [GetTokPrecedence ?s] |- _ =>
      let E := fresh "E" in
      destruct (GetTokPrecedence s) as [? ?] eqn:E;
      apply GetTokPrecedence_grows' in E
  | H : (if ?b then _ else _) = Some _ |- _ => destruct b
  | H : Some (LogError _ _) = Some _ |- _ => unfold LogError in H
  | H : Some (_, _) = Some (_, _) |- _ => inversion H; subst; clear H
  end.

Ltac table_call IH :=
  match goal with
  | H : match ?f with _ => _ end = Some _ |- _ =>
      let E := fresh "E" in
      destruct f as [[[?|] ?]|] eqn:E; try discriminate; apply IH in E
  end.

Ltac table_done := repeat table_step; simpl; try chain.

Lemma ParseNumberExpr_grows st r st' : ParseNumberExpr st = (r, st') -> grows st st'.
Proof.
  unfold ParseNumberExpr. intros H. table_step. inversion H; subst. chain.
Qed.

Lemma parser_grows fuel : grows_at fuel.
Proof.
  unfold grows_at.
  induction fuel as [|fuel (IHp & IHpa & IHi & IHa & IHe & IHb)];
    [repeat (match goal with |- _ /\ _ => split end); intros; discriminate|].
  repeat (match goal with |- _ /\ _ => split end); intros;
    match goal with H : _ = Some _ |- _ => simpl in H end.
  - destruct (CurTok st =? tok_identifier); [eauto|].
    destruct (CurTok st =? tok_number).
    { eapply ParseNumberExpr_grows. apply (inj Some) in H. exact H. }
    destruct (CurTok st =? chr "("); [eauto|]. table_done.
  - table_step. table_call IHe; table_done.
  - table_step. destruct (negb (CurTok s =? chr "(")); [table_done|].
    table_step. destruct (negb (CurTok s0 =? chr ")")).
    + table_call IHa; table_done.
    + simpl in H. table_done.
  - table_call IHe; [|table_done].
    destruct (CurTok s =? chr ")"); [table_done|].
    destruct (negb (CurTok s =? chr ",")); [table_done|].
    table_step. apply IHa in H. chain.
  - table_call IHp; [|table_done]. apply IHb in H. chain.
  - table_step. destruct (z <? p); [table_done|].
    table_step. table_call IHp; [|table_done].
    table_step. destruct (z <? z1).
    + table_call IHb; [|table_done]. apply IHb in H. chain.
    + simpl in H. apply IHb in H. chain.
Qed.

Lemma chr_to_char t : 0 <= t <= 255 -> chr (to_char t) = t.
Proof.
  intros H. unfold chr, to_char. rewrite Z.mod_small by lia.
  rewrite N_ascii_embedding by lia. lia.
Qed.

Lemma main_init_BinopPrecedence input :
  BinopPrecedence (main_init input) = BinopPrecedence (main_init EmptyString).
Proof. unfold main_init. rewrite !getNextToken_BinopPrecedence. reflexivity. Qed.

Lemma main_init_initialized input : initialized (main_init input).
Proof. intros k. rewrite main_init_BinopPrecedence. reflexivity. Qed.

Lemma initialized_grows st st' : initialized st -> grows st st' -> initialized st'.
Proof. intros H [_ G] k. rewrite G. apply H. Qed.

Lemma getNextToken_initialized st : initialized st -> initialized (snd (getNextToken st)).
Proof. intros H k. rewrite getNextToken_BinopPrecedence. apply H. Qed.

Lemma ParseExpression_grows fuel st r st' :
  ParseExpression fuel st = Some (r, st') -> grows st st'.
Proof. apply (parser_grows fuel). Qed.

Lemma ParseExpression_initialized fuel st r st' :
  initialized st -> ParseExpression fuel st = Some (r, st') -> initialized st'.
Proof.
  intros H E. eapply initialized_grows; [exact H|].
  eapply ParseExpression_grows; eauto.
Qed.

(** ** Shape of what the operator loop builds *)

Lemma left_spine_trans l m t : left_spine l m -> left_spine m t -> left_spine l t.
Proof. intros H1 H2. induction H2; [exact H1|constructor; auto]. Qed.

Lemma left_spine_node Op l r t :
  left_spine (BinaryExprAST Op l r) t -> left_spine l t.
Proof. apply left_spine_trans. constructor. constructor. Qed.

Lemma ParseBinOpRHS_spine fuel : forall p l st T st',
  ParseBinOpRHS fuel p l st = Some (Some T, st') -> left_spine l T.
Proof.
  induction fuel as [|fuel IH]; intros p l st T st' H; [discriminate|].
  simpl in H. destruct (GetTokPrecedence st) as [TokPrec st0].
  destruct (TokPrec <? p).
  { inversion H; subst. constructor. }
  destruct (getNextToken st0) as [? st1].
  destruct (ParsePrimary fuel st1) as [[[RHS|] st2]|]; try discriminate.
  destruct (GetTokPrecedence st2) as [NextPrec st3].
  destruct (TokPrec <? NextPrec).
  - destruct (ParseBinOpRHS fuel (TokPrec + 1) RHS st3) as [[[RHS'|] st4]|];
      try discriminate.
    apply IH in H. eapply left_spine_node; eauto.
  - simpl in H. apply IH in H. eapply left_spine_node; eauto.
Qed.

(** One turn of the loop of [ParseBinOpRHS], when the pending operator is
    taken and a primary follows it. *)
Lemma ParseBinOpRHS_step fuel p l st RHS st2 :
  let TokPrec := fst (GetTokPrecedence st) in
  let NextPrec := fst (GetTokPrecedence st2) in
  let st3 := snd (GetTokPrecedence st2) in
  p <= TokPrec ->
  ParsePrimary fuel (snd (getNextToken (snd (GetTokPrecedence st)))) =
    Some (Some RHS, st2) ->
  ParseBinOpRHS (S fuel) p l st =
  if TokPrec <? NextPrec then
    match ParseBinOpRHS fuel (TokPrec + 1) RHS st3 with
    | Some (Some RHS', st4) =>
        ParseBinOpRHS fuel p (BinaryExprAST (to_char (CurTok st)) l RHS') st4
    | Some (None, st4) => Some (None, st4)
    | None => None
    end
  else ParseBinOpRHS fuel p (BinaryExprAST (to_char (CurTok st)) l RHS) st3.
Proof.
  intros TokPrec NextPrec st3 Hp E. subst TokPrec NextPrec st3. simpl.
  pose proof (GetTokPrecedence_frame st) as (_ & _ & _ & _ & Hc & _).
  destruct (GetTokPrecedence st) as [TokPrec st0]; simpl in *.
  destruct (TokPrec <? p) eqn:Ep; [apply Z.ltb_lt in Ep; lia|].
  destruct (getNextToken st0) as [? st1]; simpl in *. rewrite E.
  destruct (GetTokPrecedence st2) as [NextPrec st3]; simpl.
  rewrite Hc. destruct (TokPrec <? NextPrec); reflexivity.
Qed.

(** When the loop takes the pending operator, the node it builds for that
    operator has [l] as its left operand. *)
Lemma ParseBinOpRHS_first fuel p l st T st' :
  p <= fst (GetTokPrecedence st) ->
  ParseBinOpRHS fuel p l st = Some (Some T, st') ->
  exists R, left_spine (BinaryExprAST (to_char (CurTok st)) l R) T.
Proof.
  intros Hp H. destruct fuel as [|fuel]; [discriminate|]. simpl in H.
  pose proof (GetTokPrecedence_frame st) as (_ & _ & _ & _ & Hc & _).
  destruct (GetTokPrecedence st) as [TokPrec st0]; simpl in *.
  destruct (TokPrec <? p) eqn:Ep; [apply Z.ltb_lt in Ep; lia|].
  destruct (getNextToken st0) as [? st1].
  destruct (ParsePrimary fuel st1) as [[[RHS|] st2]|]; try discriminate.
  destruct (GetTokPrecedence st2) as [NextPrec st3].
  rewrite Hc in H.
  destruct (TokPrec <? NextPrec).
  - destruct (ParseBinOpRHS fuel (TokPrec + 1) RHS st3) as [[[RHS'|] st4]|];
      try discriminate.
    apply ParseBinOpRHS_spine in H. eauto.
  - simpl in H. apply ParseBinOpRHS_spine in H. eauto.
Qed.

(** * The claims *)

(** ** Precedence climbing *)

(** C1: parsing ["1+2*3"] gives [+] with [1] on the left and [2*3] on the
    right, and parsing ["1*2+3"] gives [+] with [1*2] on the left and [3] on
    the right.  In general, in a turn of the loop of [ParseBinOpRHS] that
    takes the operator [Op] and reads the primary [RHS] after it: when the
    operator that follows binds tighter, its node, with [RHS] as left
    operand, sits inside the right operand of the node of [Op]; otherwise the
    node of [Op] is [Op l RHS], everything parsed later is built on top of
    it, and when the loop takes the following operator that node is its left
    operand. *)
Theorem precedence_climbing :
  returns (fun fuel => option_map fst (ParseExpression fuel (main_init "1+2*3")))
    (Some (BinaryExprAST "+" (NumberExprAST (double_of_Z 1))
             (BinaryExprAST "*" (NumberExprAST (double_of_Z 2))
                                (NumberExprAST (double_of_Z 3))))) /\
  returns (fun fuel => option_map fst (ParseExpression fuel (main_init "1*2+3")))
    (Some (BinaryExprAST "+"
             (BinaryExprAST "*" (NumberExprAST (double_of_Z 1))
                                (NumberExprAST (double_of_Z 2)))
             (NumberExprAST (double_of_Z 3)))) /\
  forall fuel p l st RHS st2 T st',
    let TokPrec := fst (GetTokPrecedence st) in
    let NextPrec := fst (GetTokPrecedence st2) in
    let Op := to_char (CurTok st) in
    let Op' := to_char (CurTok st2) in
    p <= TokPrec ->
    ParsePrimary fuel (snd (getNextToken (snd (GetTokPrecedence st)))) =
      Some (Some RHS, st2) ->
    ParseBinOpRHS (S fuel) p l st = Some (Some T, st') ->
    (TokPrec < NextPrec ->
       exists R RHS', left_spine (BinaryExprAST Op' RHS R) RHS' /\
                      left_spine (BinaryExprAST Op l RHS') T) /\
    (NextPrec <= TokPrec ->
       left_spine (BinaryExprAST Op l RHS) T /\
       (p <= NextPrec ->
          exists R, left_spine (BinaryExprAST Op' (BinaryExprAST Op l RHS) R) T)).
Proof.
  split; [|split].
  - apply (returns_intro _ _ 8%nat); [apply ParseExpression_monotone|].
    vm_compute; reflexivity.
  - apply (returns_intro _ _ 8%nat); [apply ParseExpression_monotone|].
    vm_compute; reflexivity.
  - intros fuel p l st RHS st2 T st' TokPrec NextPrec Op Op' Hp E H.
    rewrite (ParseBinOpRHS_step fuel p l st RHS st2 Hp E) in H.
    fold TokPrec NextPrec Op in H.
    pose proof (GetTokPrecedence_frame st2) as (_ & _ & _ & _ & Hc & _).
    simpl in Hc.
    split; intros Hlt.
    + apply Z.ltb_lt in Hlt. rewrite Hlt in H.
      destruct (ParseBinOpRHS fuel (TokPrec + 1) RHS (snd (GetTokPrecedence st2)))
        as [[[RHS'|] st4]|] eqn:E'; try discriminate.
      apply ParseBinOpRHS_first in E'.
      * destruct E' as [R HR]. rewrite Hc in HR. exists R, RHS'. split; [exact HR|].
        eapply ParseBinOpRHS_spine; eauto.
      * rewrite GetTokPrecedence_again. fold NextPrec. apply Z.ltb_lt in Hlt. lia.
    + apply Z.ltb_ge in Hlt. rewrite Hlt in H. split.
      * eapply ParseBinOpRHS_spine; eauto.
      * intros Hp'. apply ParseBinOpRHS_first in H.
        -- rewrite Hc in H. exact H.
        -- rewrite GetTokPrecedence_again. exact Hp'.
Qed.

Lemma precedence_climbing_witness :
  0 <= fst (GetTokPrecedence (after_primary "1+2*3")) /\
  exists R RHS',
    left_spine (BinaryExprAST "*" (NumberExprAST (double_of_Z 2)) R) RHS' /\
    left_spine (BinaryExprAST "+" (NumberExprAST (double_of_Z 1)) RHS')
      (BinaryExprAST "+" (NumberExprAST (double_of_Z 1))
         (BinaryExprAST "*" (NumberExprAST (double_of_Z 2))
                            (NumberExprAST (double_of_Z 3)))).
Proof.
  split; [vm_compute; discriminate|].
  edestruct (proj2 (proj2 precedence_climbing) 6%nat 0
               (NumberExprAST (double_of_Z 1)) (after_primary "1+2*3"))
    as [H _].
  - vm_compute; discriminate.
  - vm_compute; reflexivity.
  - vm_compute; reflexivity.
  - apply H. vm_compute; reflexivity.
Defined.

(** C2: parsing ["1-2-3"] gives [-] with [1-2] on the left and [3] on the
    right.  In general, when the operator that follows the primary [RHS] has
    the same precedence as the operator [Op] just taken, the node of that
    following operator has [Op l RHS] as its left operand. *)
Theorem left_associative :
  returns (fun fuel => option_map fst (ParseExpression fuel (main_init "1-2-3")))
    (Some (BinaryExprAST "-"
             (BinaryExprAST "-" (NumberExprAST (double_of_Z 1))
                                (NumberExprAST (double_of_Z 2)))
             (NumberExprAST (double_of_Z 3)))) /\
  forall fuel p l st RHS st2 T st',
    p <= fst (GetTokPrecedence st) ->
    ParsePrimary fuel (snd (getNextToken (snd (GetTokPrecedence st)))) =
      Some (Some RHS, st2) ->
    fst (GetTokPrecedence st2) = fst (GetTokPrecedence st) ->
    ParseBinOpRHS (S fuel) p l st = Some (Some T, st') ->
    exists R,
      left_spine (BinaryExprAST (to_char (CurTok st2))
                    (BinaryExprAST (to_char (CurTok st)) l RHS) R) T.
Proof.
  split.
  - apply (returns_intro _ _ 8%nat); [apply ParseExpression_monotone|].
    vm_compute; reflexivity.
  - intros fuel p l st RHS st2 T st' Hp E Heq H.
    rewrite (ParseBinOpRHS_step fuel p l st RHS st2 Hp E) in H.
    rewrite Heq, Z.ltb_irrefl in H.
    pose proof (GetTokPrecedence_frame st2) as (_ & _ & _ & _ & Hc & _).
    simpl in Hc. apply ParseBinOpRHS_first in H.
    + rewrite Hc in H. exact H.
    + rewrite GetTokPrecedence_again, Heq. exact Hp.
Qed.

Lemma left_associative_witness :
  fst (GetTokPrecedence (after_primary "1-2-3")) = 30 /\
  exists R,
    left_spine (BinaryExprAST "-"
                  (BinaryExprAST "-" (NumberExprAST (double_of_Z 1))
                                     (NumberExprAST (double_of_Z 2))) R)
      (BinaryExprAST "-"
         (BinaryExprAST "-" (NumberExprAST (double_of_Z 1))
                            (NumberExprAST (double_of_Z 2)))
         (NumberExprAST (double_of_Z 3))).
Proof.
  split; [vm_compute; reflexivity|].
  edestruct (proj2 left_associative 6%nat 0 (NumberExprAST (double_of_Z 1))
               (after_primary "1-2-3")) as [R H].
  - vm_compute; discriminate.
  - vm_compute; reflexivity.
  - vm_compute; reflexivity.
  - vm_compute; reflexivity.
  - exists R. exact H.
Defined.

(** ** The precedence table *)

(** C3, as stated, fails: looking up [';'], which [main] gave no
    precedence, leaves a new entry in the table.  A parse does it: on
    ["1;"] the operator loop looks [';'] up after the [1]. *)
Lemma GetTokPrecedence_adds_entry :
  CurTok (main_init ";") = chr ";" /\
  BinopPrecedence (main_init ";") !! ";"%char = None /\
  BinopPrecedence (snd (GetTokPrecedence (main_init ";"))) !! ";"%char = Some 0 /\
  BinopPrecedence (snd (GetTokPrecedence (main_init ";"))) <>
    BinopPrecedence (main_init ";") /\
  option_map (fun r => BinopPrecedence (snd r) !! ";"%char)
    (ParseExpression 3 (main_init "1;")) = Some (Some 0).
Proof.
  split; [vm_compute; reflexivity|].
  split; [vm_compute; reflexivity|].
  split; [vm_compute; reflexivity|].
  split; [|vm_compute; reflexivity].
  intros H. apply (f_equal (fun m : gmap ascii Z => m !! ";"%char)) in H.
  vm_compute in H. discriminate.
Qed.

(** C3 (amended): a call of [GetTokPrecedence] keeps every entry of the
    table as it is and changes no answer of a later call, for any token.  It
    leaves the table exactly as it was when the token is not ASCII or has an
    entry; for an ASCII token without an entry it adds one, with value 0.
    The other globals are not touched. *)
Theorem GetTokPrecedence_table st :
  let st' := snd (GetTokPrecedence st) in
  let k := to_char (CurTok st) in
  BinopPrecedence st' =
    (if isascii (CurTok st)
     then match BinopPrecedence st !! k with
          | Some _ => BinopPrecedence st
          | None => <[k := 0]> (BinopPrecedence st)
          end
     else BinopPrecedence st) /\
  BinopPrecedence st ⊆ BinopPrecedence st' /\
  (forall t, fst (GetTokPrecedence (set_CurTok t st')) =
             fst (GetTokPrecedence (set_CurTok t st))) /\
  st' = set_BinopPrecedence (BinopPrecedence st') st.
Proof.
  intros st' k. subst st' k. split; [|split; [|split]].
  - rewrite GetTokPrecedence_BinopPrecedence, map_subscript_snd. reflexivity.
  - apply GetTokPrecedence_grows.
  - intros t. rewrite !GetTokPrecedence_fst. simpl.
    destruct (GetTokPrecedence_grows st) as [_ ->]. reflexivity.
  - pose proof (GetTokPrecedence_frame st) as F. simpl in F.
    destruct F as (F1 & F2 & F3 & F4 & F5 & F6).
    destruct (snd (GetTokPrecedence st)); destruct st; simpl in *.
    unfold set_BinopPrecedence; simpl. congruence.
Qed.

(** The same holds of a whole parse: it only adds entries with value 0. *)
Lemma ParseExpression_table fuel st r st' :
  ParseExpression fuel st = Some (r, st') ->
  BinopPrecedence st ⊆ BinopPrecedence st' /\
  forall t, fst (GetTokPrecedence (set_CurTok t st')) =
            fst (GetTokPrecedence (set_CurTok t st)).
Proof.
  intros H. destruct (ParseExpression_grows _ _ _ _ H) as [Hs Hp].
  split; [exact Hs|]. intros t. rewrite !GetTokPrecedence_fst. simpl.
  rewrite Hp. reflexivity.
Qed.

(** C4: once [main] has filled the table, and whatever has been looked up
    since, [GetTokPrecedence] answers 10 for ['<'], 20 for ['+'], 30 for
    ['-'], 40 for ['*'], and [-1] for every other token. *)
Theorem GetTokPrecedence_initialized st t :
  initialized st ->
  fst (GetTokPrecedence (set_CurTok t st)) =
    if t =? chr "<" then 10
    else if t =? chr "+" then 20
    else if t =? chr "-" then 30
    else if t =? chr "*" then 40
    else -1.
Proof.
  intros H. rewrite GetTokPrecedence_fst. simpl. rewrite H.
  destruct (Z_le_dec 0 t) as [H0|H0]; [destruct (Z_le_dec t 255) as [H1|H1]|].
  - rewrite <- (chr_to_char t) by lia. generalize (to_char t) as a.
    intros a. clear H0 H1.
    destruct a as [[] [] [] [] [] [] [] []]; vm_compute; reflexivity.
  - assert (isascii t = false) as -> by (unfold isascii; lia).
    simpl. change (chr "<") with 60. change (chr "+") with 43.
    change (chr "-") with 45. change (chr "*") with 42.
    repeat match goal with
           | |- context [t =? ?c] => destruct (Z.eqb_spec t c); [lia|]
           end. reflexivity.
  - assert (isascii t = false) as -> by (unfold isascii; lia).
    simpl. change (chr "<") with 60. change (chr "+") with 43.
    change (chr "-") with 45. change (chr "*") with 42.
    repeat match goal with
           | |- context [t =? ?c] => destruct (Z.eqb_spec t c); [lia|]
           end. reflexivity.
Qed.

Lemma GetTokPrecedence_initialized_witness :
  initialized (main_init "1+2*3") /\
  fst (GetTokPrecedence (set_CurTok (chr "*") (main_init "1+2*3"))) = 40 /\
  fst (GetTokPrecedence (set_CurTok tok_identifier (main_init "1+2*3"))) = -1.
Proof.
  assert (H : initialized (main_init "1+2*3")) by (intros k; reflexivity).
  split; [exact H|]. split.
  - exact (GetTokPrecedence_initialized (main_init "1+2*3") (chr "*") H).
  - exact (GetTokPrecedence_initialized (main_init "1+2*3") tok_identifier H).
Defined.

(** ** Parentheses, calls and definitions *)

(** C5: on ["(1+2"], [ParsePrimary] returns [nullptr], having printed
    "Error: expected ')'".  In general, once the expression after ['('] has
    been parsed, the result is that expression if the current token is [')']
    (which is then consumed), and otherwise [nullptr] with that message. *)
Theorem missing_paren :
  (exists st',
     returns (fun fuel => ParsePrimary fuel (main_init "(1+2")) (None, st') /\
     stderr st' = stderr (main_init "(1+2") +:+ "Error: expected ')'" +:+ NL) /\
  forall fuel st V st1,
    CurTok st = chr "(" ->
    ParseExpression fuel (snd (getNextToken st)) = Some (Some V, st1) ->
    (CurTok st1 = chr ")" ->
       ParsePrimary (S (S fuel)) st = Some (Some V, snd (getNextToken st1))) /\
    (CurTok st1 <> chr ")" ->
       ParsePrimary (S (S fuel)) st =
         Some (None, fputs_stderr ("Error: expected ')'" +:+ NL) st1)).
Proof.
  split.
  - set (st' := match ParsePrimary 9 (main_init "(1+2") with
                | Some (_, s) => s
                | None => main_init "(1+2"
                end).
    assert (E : ParsePrimary 9 (main_init "(1+2") = Some (None, st'))
      by (vm_compute; reflexivity).
    exists st'. split.
    + exists 9%nat. intros fuel Hle. exact (ParsePrimary_monotone _ _ _ _ Hle E).
    + vm_compute; reflexivity.
  - intros fuel st V st1 Hc E.
    assert (ParsePrimary (S (S fuel)) st = ParseParenExpr (S fuel) st) as ->.
    { simpl. rewrite Hc. reflexivity. }
    simpl. destruct (getNextToken st) as [? st0]; simpl in E. rewrite E.
    split; intros H.
    + rewrite H. simpl. destruct (getNextToken st1); reflexivity.
    + apply Z.eqb_neq in H. rewrite H. reflexivity.
Qed.

Lemma missing_paren_witness :
  CurTok (main_init "(1+2") = chr "(" /\
  option_map fst (ParsePrimary 9 (main_init "(1+2")) = Some None.
Proof.
  split; [vm_compute; reflexivity|].
  edestruct (proj2 missing_paren 7%nat (main_init "(1+2")) as [_ H].
  - vm_compute; reflexivity.
  - vm_compute; reflexivity.
  - rewrite H; [reflexivity|]. vm_compute. discriminate.
Defined.

(** C6: on ["def foo(x y) x+y"], [ParseDefinition] returns a function whose
    prototype has the name ["foo"] and the parameters ["x"], ["y"], in that
    order, and whose body is [x + y]. *)
Theorem definition_round_trip :
  returns
    (fun fuel => option_map fst (ParseDefinition fuel (main_init "def foo(x y) x+y")))
    (Some {| Proto := {| Name := "foo"; Args := ["x"; "y"]%string |};
             Body := BinaryExprAST "+" (VariableExprAST "x") (VariableExprAST "y") |}).
Proof.
  apply (returns_intro _ _ 8%nat); [apply ParseDefinition_monotone|].
  vm_compute; reflexivity.
Qed.

(** C10: on ["foo()"], [ParseIdentifierExpr] returns the call of ["foo"] with
    no argument.  In general, when the identifier is followed by ['('] and
    then [')'], the result is the call of that identifier with an empty
    argument list, and both parentheses are consumed. *)
Theorem call_without_arguments :
  returns (fun fuel => option_map fst (ParseIdentifierExpr fuel (main_init "foo()")))
    (Some (CallExprAST "foo" [])) /\
  forall fuel st,
    let st1 := snd (getNextToken st) in
    let st2 := snd (getNextToken st1) in
    CurTok st1 = chr "(" -> CurTok st2 = chr ")" ->
    ParseIdentifierExpr (S fuel) st =
      Some (Some (CallExprAST (IdentifierStr st) []), snd (getNextToken st2)).
Proof.
  split.
  - apply (returns_intro _ _ 3%nat); [apply ParseIdentifierExpr_monotone|].
    vm_compute; reflexivity.
  - intros fuel st st1 st2 H1 H2. subst st1 st2. simpl.
    destruct (getNextToken st) as [? st1]; simpl in *. rewrite H1. simpl.
    destruct (getNextToken st1) as [? st2]; simpl in *. rewrite H2. simpl.
    destruct (getNextToken st2); reflexivity.
Qed.

Lemma call_without_arguments_witness :
  CurTok (snd (getNextToken (main_init "foo()"))) = chr "(" /\
  option_map fst (ParseIdentifierExpr 1 (main_init "foo()")) =
    Some (Some (CallExprAST "foo" [])).
Proof.
  split; [vm_compute; reflexivity|].
  rewrite (proj2 call_without_arguments 0%nat (main_init "foo()"));
    vm_compute; reflexivity.
Defined.

(** ** Numeric literals *)

Lemma to_char_chr a : to_char (chr a) = a.
Proof.
  unfold to_char. pose proof (chr_range a). rewrite Z.mod_small by lia.
  unfold chr. rewrite N2Z.id. apply ascii_N_embedding.
Qed.

Lemma append_snoc s a t : (s +:+ String a EmptyString) +:+ t = s +:+ String a t.
Proof.
  induction s as [|b s IH]; [reflexivity|].
  change (String b ((s +:+ String a EmptyString) +:+ t) = String b (s +:+ String a t)).
  f_equal. exact IH.
Qed.

Lemma read_number_run inp : forall s c,
  exists run rest,
    inp = run +:+ rest /\
    all_chars numeric run = true /\
    match rest with String a _ => numeric a = false | EmptyString => True end /\
    read_number s c inp = (s +:+ String (to_char c) run, getchar rest).
Proof.
  induction inp as [|a inp IH]; intros s c; simpl.
  - exists EmptyString, EmptyString. auto.
  - fold (numeric a). destruct (numeric a) eqn:En.
    + destruct (IH (s +:+ String (to_char c) EmptyString) (chr a))
        as (run & rest & -> & Hall & Hrest & ->).
      exists (String a run), rest. simpl. rewrite En, Hall.
      rewrite append_snoc, to_char_chr. auto.
    + exists EmptyString, (String a inp). simpl. auto.
Qed.

(** C8: when [LastChar] is a digit or ['.'], [gettok] consumes it together
    with the longest run of digits and ['.'] that follows, stops at the first
    character that is neither (or at the end of the input), and returns
    [tok_number] with [NumVal] set to [strtod] of the characters consumed.
    So ["1.2.3"] and ["."] are number tokens too. *)
Theorem number_token :
  (gettok (initial_State "1.2.3") =
     (tok_number,
      set_cursor (EOF, EmptyString) (set_NumVal (strtod "1.2.3") (initial_State "1.2.3")))) /\
  (gettok (initial_State ".") =
     (tok_number,
      set_cursor (EOF, EmptyString) (set_NumVal (strtod ".") (initial_State ".")))) /\
  forall st,
    (isdigit (LastChar st) || (LastChar st =? chr ".")) = true ->
    exists run rest,
      stdin st = run +:+ rest /\
      all_chars numeric run = true /\
      match rest with String a _ => numeric a = false | EmptyString => True end /\
      gettok st =
        (tok_number,
         set_cursor (getchar rest)
           (set_NumVal (strtod (String (to_char (LastChar st)) run)) st)).
Proof.
  split; [vm_compute; reflexivity|]. split; [vm_compute; reflexivity|].
  intros st H.
  destruct (read_number_run (stdin st) EmptyString (LastChar st))
    as (run & rest & E & Hall & Hrest & Hr).
  exists run, rest. repeat (split; [assumption|]).
  rewrite gettok_eq. unfold gettok_body, gettok_token.
  assert (isspace (LastChar st) = false) as Hs by ctype.
  assert (isalpha (LastChar st) = false) as Ha by ctype.
  rewrite (skip_space_id _ _ Hs), Ha, H, Hr. reflexivity.
Qed.

Lemma number_token_witness :
  exists run rest,
    ".2.3+x"%string = run +:+ rest /\
    all_chars numeric run = true /\
    match rest with String a _ => numeric a = false | EmptyString => True end /\
    gettok (set_cursor (chr "1", ".2.3+x"%string) (initial_State EmptyString)) =
      (tok_number,
       set_cursor (getchar rest)
         (set_NumVal (strtod (String "1" run))
            (set_cursor (chr "1", ".2.3+x"%string) (initial_State EmptyString)))).
Proof.
  exact (proj2 (proj2 number_token)
           (set_cursor (chr "1", ".2.3+x"%string) (initial_State EmptyString))
           eq_refl).
Defined.

(** ** Termination *)

Lemma ParsePrototype_args_nu st : forall ArgNames,
  (nu (snd (ParsePrototype_args ArgNames st)) <= nu st)%nat.
Proof.
  remember (mu st) as n eqn:Hn. revert st Hn.
  induction n as [n IH] using lt_wf_ind; intros st -> ArgNames.
  rewrite ParsePrototype_args_eq.
  pose proof (getNextToken_nu st) as [Hle _].
  pose proof (getNextToken_mu_lt st) as Hlt.
  destruct (getNextToken st) as [tok st1]; simpl in *.
  destruct (Z.eqb_spec tok tok_identifier) as [->|Hne]; [|exact Hle].
  specialize (IH (mu st1) (Hlt ltac:(discriminate)) st1 eq_refl
                 (ArgNames ++ [IdentifierStr st1])).
  lia.
Qed.

Lemma LogErrorProto_nu s st : nu (snd (LogErrorProto s st)) = nu st.
Proof. reflexivity. Qed.

Lemma ParsePrototype_nu st : (nu (snd (ParsePrototype st)) <= nu st)%nat.
Proof.
  unfold ParsePrototype.
  destruct (negb (CurTok st =? tok_identifier)); [rewrite LogErrorProto_nu; lia|].
  pose proof (getNextToken_nu st) as [H1 _].
  destruct (getNextToken st) as [? st1]; simpl in H1.
  destruct (negb (CurTok st1 =? chr "(")); [rewrite LogErrorProto_nu; lia|].
  pose proof (ParsePrototype_args_nu st1 []) as H2.
  destruct (ParsePrototype_args [] st1) as [ArgNames st2]; simpl in H2.
  destruct (negb (CurTok st2 =? chr ")")); [rewrite LogErrorProto_nu; lia|].
  pose proof (getNextToken_nu st2) as [H3 _].
  destruct (getNextToken st2) as [? st3]; simpl in *. lia.
Qed.

(** C9: every entry point of the parser returns, with a value or with
    [nullptr], from every state: [ParseExtern] is a total function, and the
    other three return as soon as the bound on the depth of the calls is four
    times the number of characters and tokens still to be read, plus three.
    None of them gives back input: what is left to read never grows. *)
Theorem parsing_terminates st fuel :
  (4 * nu st + 3 <= fuel)%nat ->
  (exists r st', ParseExpression fuel st = Some (r, st') /\ (nu st' <= nu st)%nat) /\
  (exists r st', ParseDefinition fuel st = Some (r, st') /\ (nu st' <= nu st)%nat) /\
  (exists r st', ParseTopLevelExpr fuel st = Some (r, st') /\ (nu st' <= nu st)%nat) /\
  (exists r st', ParseExtern st = (r, st') /\ (nu st' <= nu st)%nat).
Proof.
  intros Hf. split; [|split; [|split]].
  - apply parse_terminates. exact Hf.
  - unfold ParseDefinition.
    pose proof (getNextToken_nu st) as [H1 _].
    destruct (getNextToken st) as [? st1]; simpl in H1.
    pose proof (ParsePrototype_nu st1) as H2.
    destruct (ParsePrototype st1) as [[P|] st2]; simpl in H2.
    + destruct (parse_terminates fuel st2) as (r & st3 & -> & H3); [lia|].
      destruct r as [E|]; eexists _, _; (split; [reflexivity|lia]).
    + eexists _, _; split; [reflexivity|lia].
  - unfold ParseTopLevelExpr.
    destruct (parse_terminates fuel st Hf) as (r & st3 & -> & H3).
    destruct r as [E|]; eexists _, _; (split; [reflexivity|lia]).
  - unfold ParseExtern.
    pose proof (getNextToken_nu st) as [H1 _].
    destruct (getNextToken st) as [? st1]; simpl in H1.
    pose proof (ParsePrototype_nu st1) as H2.
    destruct (ParsePrototype st1) as [r st2]; simpl in H2.
    exists r, st2. split; [reflexivity|lia].
Qed.

Lemma parsing_terminates_witness :
  (4 * nu (main_init "(1+2") + 3 <= 27)%nat /\
  exists r st', ParseExpression 27 (main_init "(1+2") = Some (r, st') /\
                (nu st' <= nu (main_init "(1+2"))%nat.
Proof.
  assert (H : (4 * nu (main_init "(1+2") + 3 <= 27)%nat) by (vm_compute; lia).
  split; [exact H|]. exact (proj1 (parsing_terminates (main_init "(1+2") 27 H)).
Defined.

(** ** Comments *)

Lemma append_cons a s t : String a s +:+ t = String a (s +:+ t).
Proof. reflexivity. Qed.

Lemma append_nil t : EmptyString +:+ t = t.
Proof. reflexivity. Qed.

Lemma is_eol_chr a : is_eol a = true -> chr a = 10 \/ chr a = 13.
Proof.
  unfold is_eol. intros H. apply orb_true_iff in H.
  destruct H as [H|H]; apply Z.eqb_eq in H; auto.
Qed.

Lemma eol_not_isalnum a : is_eol a = true -> isalnum (chr a) = false.
Proof.
  intros H. destruct (is_eol_chr a H) as [-> | ->]; reflexivity.
Qed.

Lemma eol_not_numeric a : is_eol a = true -> numeric a = false.
Proof.
  intros H. unfold numeric. destruct (is_eol_chr a H) as [-> | ->]; reflexivity.
Qed.

Lemma gettok_token_set_cursor c inp cur st :
  gettok_token c inp (set_cursor cur st) = gettok_token c inp st.
Proof.
  unfold gettok_token.
  destruct (isalpha c).
  { destruct (read_identifier (String (to_char c) EmptyString) inp) as [id cur'].
    reflexivity. }
  destruct (isdigit c || (c =? chr ".")).
  { destruct (read_number EmptyString c inp); reflexivity. }
  reflexivity.
Qed.

Lemma gettok_body_set_cursor c inp st :
  gettok_body (set_cursor (c, inp) st) =
  gettok_token (fst (skip_space c inp)) (snd (skip_space c inp)) st.
Proof.
  unfold gettok_body. simpl. destruct (skip_space c inp) as [c' inp'].
  apply gettok_token_set_cursor.
Qed.

Lemma skip_space_idem c inp :
  skip_space (fst (skip_space c inp)) (snd (skip_space c inp)) = skip_space c inp.
Proof.
  rewrite skip_space_id by apply skip_space_not_space.
  destruct (skip_space c inp); reflexivity.
Qed.

(** White space in front of the cursor does not matter to [gettok]. *)
Lemma gettok_skip_space c inp st :
  gettok (set_cursor (skip_space c inp) st) = gettok (set_cursor (c, inp) st).
Proof.
  rewrite (gettok_eq (set_cursor (skip_space c inp) st)).
  rewrite (gettok_eq (set_cursor (c, inp) st)).
  rewrite gettok_body_set_cursor.
  rewrite (surjective_pairing (skip_space c inp)) at 1.
  rewrite gettok_body_set_cursor, skip_space_idem. reflexivity.
Qed.

Section CommentRemoval.

(** A comment [# body] that runs up to [post]: the end of its line, or
    the end of the input. *)
Variables body post : string.
Hypothesis Hbody : no_eol body = true.
Hypothesis Hpost : at_eol post = true.

Definition with_comment (s : string) : string :=
  s +:+ String "#" (body +:+ post).

Definition without_comment (s : string) : string := s +:+ post.

Lemma skip_comment_to_eol b :
  no_eol b = true -> skip_comment (b +:+ post) = getchar post.
Proof.
  induction b as [|a b IH]; intros H.
  - rewrite append_nil. destruct post as [|a r]; [reflexivity|].
    simpl in *. fold (is_eol a). rewrite Hpost. reflexivity.
  - rewrite append_cons. simpl in *. fold (is_eol a).
    apply andb_true_iff in H. destruct H as [Ha Hb].
    apply negb_true_iff in Ha. rewrite Ha. auto.
Qed.

Lemma skip_comment_post : skip_comment post = getchar post.
Proof. apply (skip_comment_to_eol EmptyString). reflexivity. Qed.

(** How two cursors, one on the input with the comment and one on the
    input without it, can stand to each other. *)
Inductive sim : Z * string -> Z * string -> Prop :=
| sim_same cur : sim cur cur
| sim_ahead c s : sim (c, with_comment s) (c, without_comment s)
| sim_at : sim (chr "#", body +:+ post) (getchar post).

Lemma getchar_sim s : sim (getchar (with_comment s)) (getchar (without_comment s)).
Proof.
  destruct s as [|a s].
  - apply sim_at.
  - apply sim_ahead.
Qed.

Lemma skip_comment_sim s :
  skip_comment (with_comment s) = skip_comment (without_comment s) \/
  exists c s', (String.length s' < String.length s)%nat /\
               skip_comment (with_comment s) = (c, with_comment s') /\
               skip_comment (without_comment s) = (c, without_comment s').
Proof.
  induction s as [|a s IH].
  - left. unfold with_comment, without_comment. rewrite !append_nil.
    simpl. rewrite skip_comment_to_eol by exact Hbody.
    symmetry. apply skip_comment_post.
  - unfold with_comment, without_comment in *. rewrite !append_cons. simpl.
    destruct ((chr a =? chr "010") || (chr a =? chr "013")).
    + right. exists (chr a), s. simpl. auto.
    + destruct IH as [IH|(c & s' & Hl & E1 & E2)]; [left; exact IH|].
      right. exists c, s'. simpl. split; [lia|auto].
Qed.

Definition skip_space_cur (cur : Z * string) : Z * string :=
  skip_space (fst cur) (snd cur).

Lemma skip_space_sim s : forall c,
  (exists c' s', (String.length s' <= String.length s)%nat /\
                 skip_space c (with_comment s) = (c', with_comment s') /\
                 skip_space c (without_comment s) = (c', without_comment s')) \/
  (skip_space c (with_comment s) = (chr "#", body +:+ post) /\
   skip_space c (without_comment s) = skip_space_cur (getchar post)).
Proof.
  induction s as [|a s IH]; intros c.
  - unfold with_comment, without_comment. rewrite !append_nil.
    destruct (isspace c) eqn:Ec.
    + right. simpl. rewrite Ec.
      split; [apply skip_space_id; reflexivity|].
      destruct post as [|b r]; simpl; rewrite Ec; reflexivity.
    + left. exists c, EmptyString. rewrite !skip_space_id by exact Ec.
      unfold with_comment, without_comment. rewrite !append_nil. auto.
  - destruct (isspace c) eqn:Ec.
    + destruct (IH (chr a)) as [(c' & s' & Hl & E1 & E2)|[E1 E2]].
      * left. exists c', s'. unfold with_comment, without_comment in *.
        rewrite !append_cons. simpl. rewrite Ec. split; [lia|auto].
      * right. unfold with_comment, without_comment in *.
        rewrite !append_cons. simpl. rewrite Ec. auto.
    + left. exists c, (String a s). rewrite !skip_space_id by exact Ec. auto.
Qed.

Lemma read_identifier_sim s : forall id,
  exists id' cur1 cur2,
    read_identifier id (with_comment s) = (id', cur1) /\
    read_identifier id (without_comment s) = (id', cur2) /\
    sim cur1 cur2.
Proof.
  induction s as [|a s IH]; intros id.
  - unfold with_comment, without_comment. rewrite !append_nil.
    exists id, (chr "#", body +:+ post), (getchar post).
    split; [reflexivity|]. split; [|apply sim_at].
    destruct post as [|b r]; [reflexivity|]. simpl in *.
    rewrite (eol_not_isalnum _ Hpost). reflexivity.
  - unfold with_comment, without_comment in *. rewrite !append_cons. simpl.
    destruct (isalnum (chr a)); [apply IH|].
    exists id, (chr a, with_comment s), (chr a, without_comment s).
    split; [reflexivity|]. split; [reflexivity|apply sim_ahead].
Qed.

Lemma read_number_sim s : forall NumStr c,
  exists NumStr' cur1 cur2,
    read_number NumStr c (with_comment s) = (NumStr', cur1) /\
    read_number NumStr c (without_comment s) = (NumStr', cur2) /\
    sim cur1 cur2.
Proof.
  induction s as [|a s IH]; intros NumStr c.
  - unfold with_comment, without_comment. rewrite !append_nil.
    exists (NumStr +:+ String (to_char c) EmptyString),
      (chr "#", body +:+ post), (getchar post).
    split; [reflexivity|]. split; [|apply sim_at].
    destruct post as [|b r]; [reflexivity|]. simpl in *.
    fold (numeric b). rewrite (eol_not_numeric _ Hpost). reflexivity.
  - unfold with_comment, without_comment in *. rewrite !append_cons. simpl.
    destruct (isdigit (chr a) || (chr a =? chr ".")); [apply IH|].
    exists (NumStr +:+ String (to_char c) EmptyString),
      (chr a, with_comment s), (chr a, without_comment s).
    split; [reflexivity|]. split; [reflexivity|apply sim_ahead].
Qed.

(** Two states that differ in the cursor only, the cursors being related. *)
Definition sim_state (st1 st2 : State) : Prop :=
  exists st cur1 cur2,
    st1 = set_cursor cur1 st /\ st2 = set_cursor cur2 st /\ sim cur1 cur2.

Definition agree (r1 r2 : Z * State) : Prop :=
  fst r1 = fst r2 /\ sim_state (snd r1) (snd r2).

Lemma sim_state_refl st : sim_state st st.
Proof.
  exists st, (cursor st), (cursor st).
  repeat split; try (destruct st; reflexivity). apply sim_same.
Qed.

Lemma agree_refl r : agree r r.
Proof. split; [reflexivity|apply sim_state_refl]. Qed.

Lemma sim_state_intro st cur1 cur2 :
  sim cur1 cur2 -> sim_state (set_cursor cur1 st) (set_cursor cur2 st).
Proof. intros H. exists st, cur1, cur2. auto. Qed.

(** At the ['#'] of the comment, [gettok] goes on as if the cursor were
    at the end of the line. *)
Lemma gettok_at st :
  gettok (set_cursor (chr "#", body +:+ post) st) =
  gettok (set_cursor (getchar post) st).
Proof.
  rewrite (gettok_eq (set_cursor (chr "#", body +:+ post) st)).
  rewrite gettok_body_set_cursor.
  rewrite skip_space_id by reflexivity. simpl.
  unfold gettok_token.
  change (isalpha (chr "#")) with false.
  change (isdigit (chr "#") || (chr "#" =? chr ".")) with false.
  change (chr "#" =? chr "#") with true. cbv iota.
  rewrite skip_comment_to_eol by exact Hbody.
  destruct post as [|a r]; simpl.
  - rewrite gettok_eq. reflexivity.
  - rewrite chr_not_EOF. reflexivity.
Qed.

Lemma gettok_ahead n : forall s, (String.length s < n)%nat -> forall c st,
  agree (gettok (set_cursor (c, with_comment s) st))
        (gettok (set_cursor (c, without_comment s) st)).
Proof.
  induction n as [|n IH]; intros s Hl c st; [lia|].
  rewrite <- (gettok_skip_space c (with_comment s)).
  rewrite <- (gettok_skip_space c (without_comment s)).
  pose proof (skip_space_not_space c (with_comment s)) as Hns.
  destruct (skip_space_sim s c) as [(c' & s' & Hl' & E1 & E2)|[E1 E2]].
  - rewrite E1, E2. rewrite E1 in Hns. simpl in Hns.
    rewrite !gettok_eq, !gettok_body_set_cursor.
    rewrite !skip_space_id by exact Hns. simpl.
    unfold gettok_token.
    destruct (isalpha c').
    { destruct (read_identifier_sim s' (String (to_char c') EmptyString))
        as (id & cur1 & cur2 & -> & -> & Hs).
      destruct (String.eqb id "def"); [|destruct (String.eqb id "extern")];
        (split; [reflexivity|]); simpl;
        apply (sim_state_intro (set_IdentifierStr id st)); exact Hs. }
    destruct (isdigit c' || (c' =? chr ".")).
    { destruct (read_number_sim s' EmptyString c')
        as (NumStr & cur1 & cur2 & -> & -> & Hs).
      split; [reflexivity|]. simpl.
      apply (sim_state_intro (set_NumVal (strtod NumStr) st)); exact Hs. }
    destruct (c' =? chr "#").
    { destruct (skip_comment_sim s') as [E|(c2 & s2 & Hl2 & E3 & E4)].
      - rewrite E. apply agree_refl.
      - rewrite E3, E4. simpl.
        destruct (negb (c2 =? EOF)).
        + apply IH. lia.
        + split; [reflexivity|]. simpl.
          apply sim_state_intro. apply sim_ahead. }
    destruct (c' =? EOF).
    { split; [reflexivity|]. simpl. apply sim_state_intro. apply sim_ahead. }
    split; [reflexivity|]. simpl. apply sim_state_intro. apply getchar_sim.
  - rewrite E1, E2. unfold skip_space_cur.
    rewrite (gettok_skip_space (fst (getchar post)) (snd (getchar post))).
    rewrite <- surjective_pairing. rewrite gettok_at. apply agree_refl.
Qed.

Lemma gettok_sim st1 st2 :
  sim_state st1 st2 -> agree (gettok st1) (gettok st2).
Proof.
  intros (st & cur1 & cur2 & -> & -> & Hs). destruct Hs as [cur|c s|].
  - apply agree_refl.
  - apply (gettok_ahead (S (String.length s))). lia.
  - rewrite gettok_at. apply agree_refl.
Qed.

Lemma sim_state_values st1 st2 :
  sim_state st1 st2 ->
  IdentifierStr st1 = IdentifierStr st2 /\ NumVal st1 = NumVal st2.
Proof. intros (st & cur1 & cur2 & -> & -> & _). auto. Qed.

Lemma tokenize_sim n : forall st1 st2,
  (mu st1 < n)%nat -> sim_state st1 st2 -> tokenize st1 = tokenize st2.
Proof.
  induction n as [|n IH]; intros st1 st2 Hl Hs; [lia|].
  rewrite (tokenize_eq st1), (tokenize_eq st2).
  pose proof (gettok_sim st1 st2 Hs) as [Ht Hs'].
  pose proof (gettok_mu_lt st1) as Hlt.
  destruct (gettok st1) as [tok st1'], (gettok st2) as [tok' st2'].
  simpl in *. subst tok'.
  destruct (sim_state_values _ _ Hs') as [-> ->].
  destruct (Z.eqb_spec tok tok_eof) as [_|Hne]; [reflexivity|].
  f_equal. apply IH; [specialize (Hlt Hne); lia|exact Hs'].
Qed.

Lemma tokenize_comment pre c st :
  tokenize (set_cursor (c, with_comment pre) st) =
  tokenize (set_cursor (c, without_comment pre) st).
Proof.
  apply (tokenize_sim (S (mu (set_cursor (c, with_comment pre) st)))); [lia|].
  apply sim_state_intro. apply sim_ahead.
Qed.

End CommentRemoval.

(** C7: a comment does not change the tokens.  For every input, taking out
    a ['#'] and the characters after it up to, and not including, the
    character that ends the line (a line feed or a carriage return, as
    [gettok] has it) or up to the end of the input, leaves the sequence of
    tokens as it was, with the identifiers and the numbers that come with
    them.  So ["1 #comment\n2"] gives the tokens of ["1\n2"]. *)
Theorem comments_are_transparent :
  tokenize (initial_State ("1 #comment" +:+ NL +:+ "2")) =
    tokenize (initial_State ("1" +:+ NL +:+ "2")) /\
  forall pre body post,
    no_eol body = true -> at_eol post = true ->
    tokenize (initial_State (pre +:+ String "#" (body +:+ post))) =
    tokenize (initial_State (pre +:+ post)).
Proof.
  split; [vm_compute; reflexivity|].
  intros pre body post Hb Hp.
  exact (tokenize_comment body post Hb Hp pre (chr " ") (initial_State EmptyString)).
Qed.

Lemma comments_are_transparent_witness :
  no_eol "comment" = true /\ at_eol (NL +:+ "2") = true /\
  tokenize (initial_State ("1 " +:+ String "#" ("comment" +:+ NL +:+ "2"))) =
  tokenize (initial_State ("1 " +:+ NL +:+ "2")).
Proof.
  split; [reflexivity|]. split; [reflexivity|].
  exact (proj2 comments_are_transparent "1 " "comment" (NL +:+ "2") eq_refl eq_refl).
Defined.

(** * Further properties *)

(** ** The lexer *)

Lemma set_cursor_cursor st : set_cursor (cursor st) st = st.
Proof. destruct st; reflexivity. Qed.

(** X1: at the end of the input [gettok] answers [tok_eof] and changes
    nothing, so it goes on answering [tok_eof]. *)
Theorem gettok_at_eof st :
  LastChar st = EOF ->
  gettok st = (tok_eof, st) /\
  gettok (snd (gettok st)) = (tok_eof, st) /\
  getNextToken (snd (getNextToken st)) = getNextToken st.
Proof.
  intros H.
  assert (E : forall s, LastChar s = EOF -> gettok s = (tok_eof, s)).
  { intros s Hs. rewrite gettok_eq. unfold gettok_body.
    rewrite Hs, skip_space_EOF. unfold gettok_token. simpl.
    rewrite <- Hs. fold (cursor s). rewrite set_cursor_cursor. reflexivity. }
  split; [apply E; exact H|]. split.
  - rewrite (E st H). simpl. apply E. exact H.
  - unfold getNextToken. rewrite (E st H). simpl. rewrite E by exact H. reflexivity.
Qed.

Lemma gettok_at_eof_witness :
  LastChar (main_init "x") = EOF /\
  gettok (main_init "x") = (tok_eof, main_init "x").
Proof.
  assert (H : LastChar (main_init "x") = EOF) by (vm_compute; reflexivity).
  split; [exact H|]. exact (proj1 (gettok_at_eof (main_init "x") H)).
Defined.

Lemma append_empty s : s +:+ EmptyString = s.
Proof.
  induction s as [|b s IH]; [reflexivity|].
  change (String b (s +:+ EmptyString) = String b s). f_equal. exact IH.
Qed.

Lemma read_identifier_run inp : forall id,
  exists run rest,
    inp = run +:+ rest /\
    all_chars (fun a => isalnum (chr a)) run = true /\
    match rest with
    | String a _ => isalnum (chr a) = false
    | EmptyString => True
    end /\
    read_identifier id inp = (id +:+ run, getchar rest).
Proof.
  induction inp as [|a inp IH]; intros id; simpl.
  - exists EmptyString, EmptyString. repeat split.
    rewrite append_empty. reflexivity.
  - destruct (isalnum (chr a)) eqn:En.
    + destruct (IH (id +:+ String a EmptyString))
        as (run & rest & -> & Hall & Hrest & ->).
      exists (String a run), rest. simpl. rewrite En, Hall.
      rewrite append_snoc. auto.
    + exists EmptyString, (String a inp). simpl.
      repeat split; [exact En|]. rewrite append_empty. reflexivity.
Qed.

(** X2: when [LastChar] is a letter, [gettok] consumes it together with
    the longest run of letters and digits that follows, leaves that text in
    [IdentifierStr], and answers [tok_def] or [tok_extern] when the text is
    exactly that keyword and [tok_identifier] otherwise. *)
Theorem identifier_token st :
  isalpha (LastChar st) = true ->
  exists run rest,
    stdin st = run +:+ rest /\
    all_chars (fun a => isalnum (chr a)) run = true /\
    match rest with
    | String a _ => isalnum (chr a) = false
    | EmptyString => True
    end /\
    let id := String (to_char (LastChar st)) run in
    gettok st =
      (if String.eqb id "def" then tok_def
       else if String.eqb id "extern" then tok_extern
       else tok_identifier,
       set_cursor (getchar rest) (set_IdentifierStr id st)).
Proof.
  intros H.
  destruct (read_identifier_run (stdin st) (String (to_char (LastChar st)) EmptyString))
    as (run & rest & E & Hall & Hrest & Hr).
  exists run, rest. repeat (split; [assumption|]).
  rewrite gettok_eq. unfold gettok_body, gettok_token.
  assert (isspace (LastChar st) = false) as Hs by ctype.
  rewrite (skip_space_id _ _ Hs), H, Hr.
  change (String (to_char (LastChar st)) EmptyString +:+ run)
    with (String (to_char (LastChar st)) run).
  cbv beta iota zeta.
  destruct (String.eqb (String (to_char (LastChar st)) run) "def");
    [reflexivity|].
  destruct (String.eqb (String (to_char (LastChar st)) run) "extern");
    reflexivity.
Qed.

Lemma identifier_token_witness :
  exists run rest,
    "ef1 (x)"%string = run +:+ rest /\
    all_chars (fun a => isalnum (chr a)) run = true /\
    match rest with
    | String a _ => isalnum (chr a) = false
    | EmptyString => True
    end /\
    gettok (set_cursor (chr "d", "ef1 (x)"%string) (initial_State EmptyString)) =
      (if String.eqb (String "d" run) "def" then tok_def
       else if String.eqb (String "d" run) "extern" then tok_extern
       else tok_identifier,
       set_cursor (getchar rest)
         (set_IdentifierStr (String "d" run)
            (set_cursor (chr "d", "ef1 (x)"%string) (initial_State EmptyString)))).
Proof.
  exact (identifier_token
           (set_cursor (chr "d", "ef1 (x)"%string) (initial_State EmptyString))
           eq_refl).
Defined.

Lemma skip_space_prefix ws : forall c s,
  isspace c = true ->
  all_chars (fun a => isspace (chr a)) ws = true ->
  skip_space c (ws +:+ s) = skip_space c s.
Proof.
  induction ws as [|a ws IH]; intros c s Hc Hws; [reflexivity|].
  simpl in Hws. apply andb_true_iff in Hws. destruct Hws as [Ha Hws].
  rewrite append_cons. simpl. rewrite Hc.
  rewrite (IH (chr a) s Ha Hws).
  destruct s as [|b s]; simpl; rewrite Ha, Hc; reflexivity.
Qed.

(** X3: white space counts once.  When the cursor is on a white-space
    character, more white space after it changes neither the token that
    [gettok] returns nor the state it leaves; so white space at the start of
    the input changes no token. *)
Theorem white_space_is_skipped ws s :
  all_chars (fun a => isspace (chr a)) ws = true ->
  (forall c st, isspace c = true ->
     gettok (set_cursor (c, ws +:+ s) st) = gettok (set_cursor (c, s) st)) /\
  tokenize (initial_State (ws +:+ s)) = tokenize (initial_State s).
Proof.
  intros Hws.
  assert (G : forall c st, isspace c = true ->
            gettok (set_cursor (c, ws +:+ s) st) = gettok (set_cursor (c, s) st)).
  { intros c st Hc.
    rewrite <- (gettok_skip_space c (ws +:+ s)), <- (gettok_skip_space c s).
    rewrite skip_space_prefix by assumption. reflexivity. }
  split; [exact G|].
  rewrite (tokenize_eq (initial_State (ws +:+ s))), (tokenize_eq (initial_State s)).
  change (initial_State (ws +:+ s))
    with (set_cursor (chr " ", ws +:+ s) (initial_State EmptyString)).
  change (initial_State s)
    with (set_cursor (chr " ", s) (initial_State EmptyString)).
  rewrite G by reflexivity. reflexivity.
Qed.

Lemma white_space_is_skipped_witness :
  tokenize (initial_State ("  " +:+ NL +:+ "x+1")) = tokenize (initial_State "x+1").
Proof.
  exact (proj2 (white_space_is_skipped ("  " +:+ NL) "x+1" eq_refl)).
Defined.

Lemma cursor_ok_getchar inp : cursor_ok (getchar inp).
Proof.
  destruct inp as [|a inp]; unfold cursor_ok; simpl.
  - unfold EOF. split; [lia|reflexivity].
  - pose proof (chr_range a). unfold EOF. split; [lia|lia].
Qed.

Lemma cursor_ok_skip_space inp : forall c,
  cursor_ok (c, inp) -> cursor_ok (skip_space c inp).
Proof.
  induction inp as [|a inp IH]; intros c H; simpl.
  - destruct (isspace c); [apply (cursor_ok_getchar EmptyString)|exact H].
  - destruct (isspace c); [|exact H].
    apply IH. apply (cursor_ok_getchar (String a inp)).
Qed.

Lemma cursor_ok_read_identifier inp : forall id,
  cursor_ok (snd (read_identifier id inp)).
Proof.
  induction inp as [|a inp IH]; intros id; simpl.
  - apply (cursor_ok_getchar EmptyString).
  - destruct (isalnum (chr a)); [apply IH|].
    apply (cursor_ok_getchar (String a inp)).
Qed.

Lemma cursor_ok_read_number inp : forall s c,
  cursor_ok (snd (read_number s c inp)).
Proof.
  induction inp as [|a inp IH]; intros s c; simpl.
  - apply (cursor_ok_getchar EmptyString).
  - destruct (isdigit (chr a) || (chr a =? chr ".")); [apply IH|].
    apply (cursor_ok_getchar (String a inp)).
Qed.

Lemma cursor_ok_skip_comment inp : cursor_ok (skip_comment inp).
Proof.
  induction inp as [|a inp IH]; simpl.
  - apply (cursor_ok_getchar EmptyString).
  - destruct ((chr a =? chr "010") || (chr a =? chr "013")); [|exact IH].
    apply (cursor_ok_getchar (String a inp)).
Qed.

Lemma gettok_body_ok st :
  cursor_ok (cursor st) ->
  match gettok_body st with
  | Emit tok st' => token_ok tok st'
  | Restart st' => cursor_ok (cursor st')
  end.
Proof.
  intros H. unfold gettok_body, gettok_token.
  pose proof (cursor_ok_skip_space (stdin st) (LastChar st) H) as Hs.
  pose proof (skip_space_not_space (LastChar st) (stdin st)) as Hn.
  destruct (skip_space (LastChar st) (stdin st)) as [c inp]; simpl in Hn.
  destruct (isalpha c) eqn:Ea.
  { pose proof (cursor_ok_read_identifier inp (String (to_char c) EmptyString)) as Hr.
    destruct (read_identifier (String (to_char c) EmptyString) inp) as [id cur].
    simpl in Hr.
    destruct (String.eqb id "def"); [|destruct (String.eqb id "extern")];
      (split; [exact Hr|]); unfold tok_def, tok_extern, tok_identifier, tok_eof;
      (split; [lia|]); (split; intros; lia). }
  destruct (isdigit c || (c =? chr ".")) eqn:Ed.
  { pose proof (cursor_ok_read_number inp EmptyString c) as Hr.
    destruct (read_number EmptyString c inp) as [s cur]. simpl in Hr.
    split; [exact Hr|]. unfold tok_number, tok_eof.
    split; [lia|]. split; intros; lia. }
  destruct (c =? chr "#") eqn:Eh.
  { pose proof (cursor_ok_skip_comment inp) as Hr.
    destruct (skip_comment inp) as [c' inp']; simpl.
    destruct (Z.eqb_spec c' EOF) as [->|Hne]; simpl; [|exact Hr].
    split; [exact Hr|]. unfold tok_eof. split; [lia|].
    split; [|intros; lia]. intros _. destruct Hr as [_ Hr]. simpl in *. auto. }
  destruct (Z.eqb_spec c EOF) as [->|Hne].
  { split; [exact Hs|]. unfold tok_eof. split; [lia|].
    split; [|intros; lia]. intros _. destruct Hs as [_ Hs]. simpl in *. auto. }
  pose proof (cursor_ok_getchar inp) as Hg.
  destruct (getchar inp) as [c' inp']; simpl.
  split; [exact Hg|]. destruct Hs as [Hr _]. simpl in Hr. unfold EOF in *.
  split; [lia|]. split; [unfold tok_eof; intros; lia|].
  intros _. split; [exact Hn|].
  apply orb_false_iff in Ed. destruct Ed as [Ed1 Ed2].
  split; [unfold isalnum; rewrite Ea, Ed1; reflexivity|].
  apply Z.eqb_neq in Ed2, Eh. auto.
Qed.

Lemma gettok_ok st : cursor_ok (cursor st) -> token_ok (fst (gettok st)) (snd (gettok st)).
Proof.
  remember (String.length (stdin st)) as n eqn:Hn. revert st Hn.
  induction n as [n IH] using lt_wf_ind; intros st -> H.
  rewrite gettok_eq. pose proof (gettok_body_ok st H) as Hb.
  destruct (gettok_body st) as [tok st'|st'] eqn:E; simpl; [exact Hb|].
  apply (IH _ (gettok_body_Restart _ _ E) st' eq_refl Hb).
Qed.

(** X4: from a cursor that [getchar] can have left, [gettok] returns one
    of the five token codes [-1] to [-5] or the code [0] to [255] of a
    character that is no white space, letter, digit, ['.'] or ['#'], and
    leaves such a cursor again; when the token is [tok_eof] the input is
    used up. *)
Theorem gettok_token_range st :
  cursor_ok (cursor st) ->
  let tok := fst (gettok st) in
  let st' := snd (gettok st) in
  cursor_ok (cursor st') /\
  -5 <= tok <= 255 /\
  (tok = tok_eof -> LastChar st' = EOF /\ stdin st' = EmptyString) /\
  (0 <= tok ->
   isspace tok = false /\ isalnum tok = false /\
   tok <> chr "." /\ tok <> chr "#").
Proof. intros H. exact (gettok_ok st H). Qed.

Lemma gettok_token_range_witness :
  cursor_ok (cursor (initial_State "x")) /\
  -5 <= fst (gettok (initial_State "x")) <= 255.
Proof.
  assert (H : cursor_ok (cursor (initial_State "x"))).
  { split; [vm_compute; split; discriminate|]. vm_compute. discriminate. }
  split; [exact H|]. exact (proj1 (proj2 (gettok_token_range (initial_State "x") H))).
Defined.

(** X5: a character that is no white space, letter, digit, ['.'] or
    ['#'] is a token by itself: [gettok] returns its code and consumes that
    one character, whatever follows it. *)
Theorem punctuation_token st :
  let c := LastChar st in
  isspace c = false -> isalnum c = false ->
  c <> chr "." -> c <> chr "#" -> c <> EOF ->
  gettok st = (c, set_cursor (getchar (stdin st)) st).
Proof.
  intros c Hs Ha Hd Hh He. subst c.
  rewrite gettok_eq. unfold gettok_body, gettok_token.
  rewrite (skip_space_id _ _ Hs).
  unfold isalnum in Ha. apply orb_false_iff in Ha. destruct Ha as [Ha1 Ha2].
  apply Z.eqb_neq in Hd, Hh, He. rewrite Ha1, Ha2, Hd, Hh, He. reflexivity.
Qed.

Lemma punctuation_token_witness :
  gettok (set_cursor (chr "(", "(x"%string) (initial_State EmptyString)) =
    (chr "(", set_cursor (chr "(", "x"%string) (initial_State EmptyString)).
Proof.
  apply (punctuation_token (set_cursor (chr "(", "(x"%string) (initial_State EmptyString)));
    try reflexivity; vm_compute; discriminate.
Defined.

(** X6: the tokens of an input are a sequence without [tok_eof] followed
    by one [tok_eof]. *)
Theorem tokenize_ends_with_eof st :
  exists toks id val,
    tokenize st = toks ++ [(tok_eof, id, val)] /\
    Forall (fun t => fst (fst t) <> tok_eof) toks.
Proof.
  remember (mu st) as n eqn:Hn. revert st Hn.
  induction n as [n IH] using lt_wf_ind; intros st ->.
  rewrite tokenize_eq. pose proof (gettok_mu_lt st) as Hlt.
  destruct (gettok st) as [tok st']; simpl in Hlt.
  destruct (Z.eqb_spec tok tok_eof) as [->|Hne].
  - exists [], (IdentifierStr st'), (NumVal st'). split; [reflexivity|constructor].
  - destruct (IH _ (Hlt Hne) st' eq_refl) as (toks & id & val & -> & HF).
    exists ((tok, IdentifierStr st', NumVal st') :: toks), id, val.
    split; [reflexivity|]. constructor; [exact Hne|exact HF].
Qed.

(** X7: [gettok] reads and sets [LastChar], [IdentifierStr] and [NumVal]
    only: the current token, the precedence table and what has been printed
    are as before. *)
Theorem gettok_leaves_parser_globals st :
  CurTok (snd (gettok st)) = CurTok st /\
  BinopPrecedence (snd (gettok st)) = BinopPrecedence st /\
  stderr (snd (gettok st)) = stderr st.
Proof.
  pose proof (gettok_globals st) as H. unfold parser_globals in H.
  inversion H. auto.
Qed.

(** ** What a parse does to the globals *)

Lemma getNextToken_steps st tok st' : getNextToken st = (tok, st') -> steps st st'.
Proof.
  intros E. apply rtc_once. replace st' with (snd (getNextToken st)) by (rewrite E; reflexivity).
  constructor.
Qed.

Lemma GetTokPrecedence_steps st p st' : GetTokPrecedence st = (p, st') -> steps st st'.
Proof.
  intros E. apply rtc_once. replace st' with (snd (GetTokPrecedence st)) by (rewrite E; reflexivity).
  constructor.
Qed.

Lemma fputs_stderr_steps s st : steps st (fputs_stderr s st).
Proof. apply rtc_once. constructor. Qed.

Ltac steps_chain :=
  solve [ apply rtc_refl
        | eassumption
        | apply fputs_stderr_steps
        | eapply rtc_trans; [eassumption | steps_chain] ].

Ltac steps_step :=
  match goal with
  | H : context [getNextToken ?s] |- _ =>
      let E := fresh "E" in
      destruct (getNextToken s) as [? ?] eqn:E;
      apply getNextToken_steps in E
  | H : context [GetTokPrecedence ?s] |- _ =>
      let E := fresh "E" in
      destruct (GetTokPrecedence s) as [? ?] eqn:E;
      apply GetTokPrecedence_steps in E
  | H : (if ?b then _ else _) = Some _ |- _ => destruct b
  | H : Some (LogError _ _) = Some _ |- _ => unfold LogError in H
  | H : Some (_, _) = Some (_, _) |- _ => inversion H; subst; clear H
  end.

Ltac steps_call IH :=
  match goal with
  | H : match ?f with _ => _ end = Some _ |- _ =>
      let E := fresh "E" in
      destruct f as [[[?|] ?]|] eqn:E; try discriminate; apply IH in E
  end.

Ltac steps_done := repeat steps_step; simpl; try steps_chain.

Lemma ParseNumberExpr_steps st r st' : ParseNumberExpr st = (r, st') -> steps st st'.
Proof.
  unfold ParseNumberExpr. intros H. steps_step. inversion H; subst. steps_chain.
Qed.

Lemma parser_steps fuel : steps_at fuel.
Proof.
  unfold steps_at.
  induction fuel as [|fuel (IHp & IHpa & IHi & IHa & IHe & IHb)];
    [repeat (match goal with |- _ /\ _ => split end); intros; discriminate|].
  repeat (match goal with |- _ /\ _ => split end); intros;
    match goal with H : _ = Some _ |- _ => simpl in H end.
  - destruct (CurTok st =? tok_identifier); [eauto|].
    destruct (CurTok st =? tok_number).
    { eapply ParseNumberExpr_steps. apply (inj Some) in H. exact H. }
    destruct (CurTok st =? chr "("); [eauto|]. steps_done.
  - steps_step. steps_call IHe; steps_done.
  - steps_step. destruct (negb (CurTok s =? chr "(")); [steps_done|].
    steps_step. destruct (negb (CurTok s0 =? chr ")")).
    + steps_call IHa; steps_done.
    + simpl in H. steps_done.
  - steps_call IHe; [|steps_done].
    destruct (CurTok s =? chr ")"); [steps_done|].
    destruct (negb (CurTok s =? chr ",")); [steps_done|].
    steps_step. apply IHa in H. steps_chain.
  - steps_call IHp; [|steps_done]. apply IHb in H. steps_chain.
  - steps_step. destruct (z <? p); [steps_done|].
    steps_step. steps_call IHp; [|steps_done].
    steps_step. destruct (z <? z1).
    + steps_call IHb; [|steps_done]. apply IHb in H. steps_chain.
    + simpl in H. apply IHb in H. steps_chain.
Qed.

Lemma ParseExpression_steps fuel st r st' :
  ParseExpression fuel st = Some (r, st') -> steps st st'.
Proof. apply (parser_steps fuel). Qed.

Lemma ParseIdentifierExpr_args_steps fuel a st r st' :
  ParseIdentifierExpr_args fuel a st = Some (r, st') -> steps st st'.
Proof. apply (parser_steps fuel). Qed.

Lemma ParseBinOpRHS_steps fuel p l st r st' :
  ParseBinOpRHS fuel p l st = Some (r, st') -> steps st st'.
Proof. apply (parser_steps fuel). Qed.

Lemma ParsePrototype_args_steps st : forall ArgNames,
  steps st (snd (ParsePrototype_args ArgNames st)).
Proof.
  remember (mu st) as n eqn:Hn. revert st Hn.
  induction n as [n IH] using lt_wf_ind; intros st -> ArgNames.
  rewrite ParsePrototype_args_eq.
  pose proof (getNextToken_mu_lt st) as Hlt.
  destruct (getNextToken st) as [tok st1] eqn:E; simpl in *.
  apply getNextToken_steps in E.
  destruct (Z.eqb_spec tok tok_identifier) as [->|Hne]; [|exact E].
  eapply rtc_trans; [exact E|].
  apply (IH (mu st1) (Hlt ltac:(discriminate)) st1 eq_refl).
Qed.

Lemma ParsePrototype_steps st : steps st (snd (ParsePrototype st)).
Proof.
  unfold ParsePrototype, LogErrorProto, LogError.
  destruct (negb (CurTok st =? tok_identifier)); [apply fputs_stderr_steps|].
  destruct (getNextToken st) as [? st1] eqn:E1. apply getNextToken_steps in E1.
  destruct (negb (CurTok st1 =? chr "(")); [simpl; steps_chain|].
  pose proof (ParsePrototype_args_steps st1 []) as H2.
  destruct (ParsePrototype_args [] st1) as [ArgNames st2]; simpl in H2.
  destruct (negb (CurTok st2 =? chr ")")); [simpl; steps_chain|].
  destruct (getNextToken st2) as [? st3] eqn:E3. apply getNextToken_steps in E3.
  simpl. steps_chain.
Qed.

(** A property that the three steps keep is kept by a parse. *)
Lemma steps_invariant (P : State -> Prop) :
  (forall st, P st -> P (snd (getNextToken st))) ->
  (forall st, P st -> P (snd (GetTokPrecedence st))) ->
  (forall s st, P st -> P (fputs_stderr s st)) ->
  forall st st', steps st st' -> P st -> P st'.
Proof.
  intros Ht Hp Hl st st' H. induction H as [|x y z Hxy _ IH]; [auto|].
  intros Hx. apply IH. destruct Hxy; auto.
Qed.

Lemma steps_nu st st' : steps st st' -> (nu st' <= nu st)%nat.
Proof.
  intros H. induction H as [|x y z Hxy _ IH]; [lia|].
  etrans; [exact IH|]. destruct Hxy.
  - apply getNextToken_nu.
  - destruct (GetTokPrecedence st) as [p s] eqn:E.
    destruct (GetTokPrecedence_nu _ _ _ E) as [Hn _]. simpl. lia.
  - rewrite nu_fputs_stderr. lia.
Qed.

Lemma getNextToken_stderr st : stderr (snd (getNextToken st)) = stderr st.
Proof.
  unfold getNextToken. pose proof (gettok_globals st) as H.
  destruct (gettok st) as [tok st']; simpl in *.
  unfold parser_globals in H. congruence.
Qed.

Lemma GetTokPrecedence_stderr st : stderr (snd (GetTokPrecedence st)) = stderr st.
Proof. apply (GetTokPrecedence_frame st). Qed.

Lemma getNextToken_session_ok st :
  cursor_ok (cursor st) -> session_ok (snd (getNextToken st)).
Proof.
  intros Hc. unfold getNextToken.
  pose proof (gettok_ok st Hc) as (H1 & _ & H3 & _).
  destruct (gettok st) as [tok st']; simpl in *.
  split; [exact H1|]. simpl. intros ->. apply H3. reflexivity.
Qed.

Lemma steps_session_ok st st' : steps st st' -> session_ok st -> session_ok st'.
Proof.
  apply steps_invariant.
  - intros s [H _]. apply getNextToken_session_ok. exact H.
  - intros s H. pose proof (GetTokPrecedence_frame s) as (F1 & F2 & _ & _ & F5 & _).
    unfold session_ok, cursor in *. rewrite F1, F2, F5. exact H.
  - intros s s0 H. exact H.
Qed.

(** ** Diagnostics *)

Ltac diag_step :=
  match goal with
  | H : context [getNextToken ?s] |- _ =>
      let Hs := fresh "Hs" in
      pose proof (getNextToken_stderr s) as Hs;
      destruct (getNextToken s) as [? ?]; simpl in Hs
  | H : context [GetTokPrecedence ?s] |- _ =>
      let Hs := fresh "Hs" in
      pose proof (GetTokPrecedence_stderr s) as Hs;
      destruct (GetTokPrecedence s) as [? ?]; simpl in Hs
  end.

Ltac diag_call IH :=
  match goal with
  | H : match ?f with _ => _ end = Some _ |- _ =>
      let E := fresh "E" in
      destruct f as [[[?|] ?]|] eqn:E; try discriminate; apply IH in E;
      simpl in E
  end.

Ltac diag_finish :=
  match goal with
  | H : Some (LogError ?msg ?s) = Some _ |- _ =>
      unfold LogError in H; inversion H; subst; clear H;
      exists msg; split; [simpl; auto 10|simpl; unfold error_line; congruence]
  | H : Some (_, _) = Some (_, _) |- _ =>
      inversion H; subst; clear H; diag_finish
  | |- reported _ _ (Some _) _ => simpl; congruence
  | E : (exists msg, _ /\ _) |- reported _ _ None _ =>
      let msg := fresh "msg" in
      let Hin := fresh "Hin" in
      let Heq := fresh "Heq" in
      destruct E as (msg & Hin & Heq);
      exists msg; split; [exact Hin|congruence]
  end.

Lemma reported_shift {A} msgs st s (r : option A) st' :
  stderr s = stderr st -> reported msgs s r st' -> reported msgs st r st'.
Proof. intros H. unfold reported. rewrite H. auto. Qed.

Lemma ParseNumberExpr_reported st r st' :
  ParseNumberExpr st = (r, st') -> reported expression_errors st r st'.
Proof.
  unfold ParseNumberExpr. intros H. diag_step. inversion H; subst. simpl. congruence.
Qed.

Lemma parser_reported fuel : reported_at fuel.
Proof.
  unfold reported_at.
  induction fuel as [|fuel (IHp & IHpa & IHi & IHa & IHe & IHb)];
    [repeat (match goal with |- _ /\ _ => split end); intros; discriminate|].
  repeat (match goal with |- _ /\ _ => split end); intros;
    match goal with H : _ = Some _ |- _ => simpl in H end.
  - destruct (CurTok st =? tok_identifier); [eauto|].
    destruct (CurTok st =? tok_number).
    { eapply ParseNumberExpr_reported. apply (inj Some) in H. exact H. }
    destruct (CurTok st =? chr "("); [eauto|]. diag_finish.
  - diag_step. diag_call IHe.
    + destruct (negb (CurTok s0 =? chr ")")); [diag_finish|].
      diag_step. diag_finish.
    + diag_finish.
  - diag_step. destruct (negb (CurTok s =? chr "(")); [diag_finish|].
    diag_step. destruct (negb (CurTok s0 =? chr ")")).
    + diag_call IHa.
      * diag_step. diag_finish.
      * diag_finish.
    + simpl in H. diag_step. diag_finish.
  - diag_call IHe; [|diag_finish].
    destruct (CurTok s =? chr ")"); [diag_finish|].
    destruct (negb (CurTok s =? chr ",")); [diag_finish|].
    diag_step. apply IHa in H.
    eapply reported_shift; [|exact H]. congruence.
  - diag_call IHp; [|diag_finish]. apply IHb in H.
    eapply reported_shift; [|exact H]. congruence.
  - diag_step. destruct (z <? p); [diag_finish|].
    diag_step. diag_call IHp; [|diag_finish].
    diag_step. destruct (z <? z1).
    + diag_call IHb; [|diag_finish]. apply IHb in H.
      eapply reported_shift; [|exact H]. congruence.
    + simpl in H. apply IHb in H.
      eapply reported_shift; [|exact H]. congruence.
Qed.

(** X8: a parse of an expression that gives a result prints nothing; one
    that gives [nullptr] has printed exactly one line, ["Error: "] followed
    by one of the three messages of the expression parser. *)
Theorem expression_diagnostics fuel st r st' :
  ParseExpression fuel st = Some (r, st') ->
  match r with
  | Some _ => stderr st' = stderr st
  | None =>
      exists msg,
        In msg expression_errors /\
        stderr st' = stderr st +:+ "Error: " +:+ msg +:+ NL
  end.
Proof. apply (parser_reported fuel). Qed.

Lemma expression_diagnostics_witness :
  exists msg,
    In msg expression_errors /\
    stderr (final_state (ParseExpression 4 (main_init "1+)"))) =
    stderr (main_init "1+)") +:+ "Error: " +:+ msg +:+ NL.
Proof.
  apply (expression_diagnostics 4 (main_init "1+)") None).
  vm_compute. reflexivity.
Defined.

(** ** Progress *)

Lemma ParseParenExpr_consumes fuel st r st' :
  CurTok st <> tok_eof ->
  ParseParenExpr fuel st = Some (r, st') -> (nu st' < nu st)%nat.
Proof.
  intros Hc H. destruct fuel as [|fuel]; [discriminate|]. simpl in H.
  destruct (getNextToken st) as [? s] eqn:E.
  pose proof (getNextToken_nu_lt _ _ _ E Hc) as Hlt.
  assert (Hs : steps s st').
  { steps_call ParseExpression_steps; steps_done. }
  apply steps_nu in Hs. lia.
Qed.

Lemma ParseIdentifierExpr_consumes fuel st r st' :
  CurTok st <> tok_eof ->
  ParseIdentifierExpr fuel st = Some (r, st') -> (nu st' < nu st)%nat.
Proof.
  intros Hc H. destruct fuel as [|fuel]; [discriminate|]. simpl in H.
  destruct (getNextToken st) as [? s] eqn:E.
  pose proof (getNextToken_nu_lt _ _ _ E Hc) as Hlt.
  assert (Hs : steps s st').
  { destruct (negb (CurTok s =? chr "(")); [steps_done|].
    steps_step. destruct (negb (CurTok s0 =? chr ")")).
    - steps_call ParseIdentifierExpr_args_steps; steps_done.
    - simpl in H. steps_done. }
  apply steps_nu in Hs. lia.
Qed.

Lemma ParsePrimary_progress fuel st r st' :
  ParsePrimary fuel st = Some (r, st') ->
  (nu st' < nu st)%nat \/
  (r = None /\
   st' = fputs_stderr (error_line "Unknown token: expected an expression") st).
Proof.
  intros H. destruct fuel as [|fuel]; [discriminate|]. simpl in H.
  destruct (Z.eqb_spec (CurTok st) tok_identifier) as [E1|E1].
  { left. eapply ParseIdentifierExpr_consumes; [|exact H]. rewrite E1. discriminate. }
  destruct (Z.eqb_spec (CurTok st) tok_number) as [E2|E2].
  { left. apply (inj Some) in H. unfold ParseNumberExpr in H.
    destruct (getNextToken st) as [? s] eqn:E.
    inversion H; subst. eapply getNextToken_nu_lt; [exact E|].
    rewrite E2. discriminate. }
  destruct (Z.eqb_spec (CurTok st) (chr "(")) as [E3|E3].
  { left. eapply ParseParenExpr_consumes; [|exact H]. rewrite E3. discriminate. }
  right. inversion H; subst. auto.
Qed.

Lemma ParseExpression_progress fuel st r st' :
  ParseExpression fuel st = Some (r, st') ->
  (nu st' < nu st)%nat \/
  (r = None /\
   st' = fputs_stderr (error_line "Unknown token: expected an expression") st).
Proof.
  intros H. destruct fuel as [|fuel]; [discriminate|]. simpl in H.
  destruct (ParsePrimary fuel st) as [[[LHS|] s]|] eqn:E; try discriminate.
  - apply ParsePrimary_progress in E. destruct E as [E|[E _]]; [|discriminate].
    apply ParseBinOpRHS_steps, steps_nu in H. left. lia.
  - inversion H; subst. apply ParsePrimary_progress in E. exact E.
Qed.

(** X9: a parse of an expression never gives input back.  When it gives a
    result it has consumed at least one token; when it has consumed nothing,
    the current token could not start an expression, and all it did was to
    print ["Error: Unknown token: expected an expression"]. *)
Theorem parse_progress fuel st r st' :
  ParseExpression fuel st = Some (r, st') ->
  (nu st' <= nu st)%nat /\
  (r <> None -> (nu st' < nu st)%nat) /\
  (nu st' = nu st ->
   r = None /\
   CurTok st <> tok_identifier /\ CurTok st <> tok_number /\ CurTok st <> chr "(" /\
   st' = fputs_stderr (error_line "Unknown token: expected an expression") st).
Proof.
  intros H. pose proof (ParseExpression_progress _ _ _ _ H) as D.
  split; [|split].
  - destruct D as [D|[_ ->]]; [lia|]. rewrite nu_fputs_stderr. lia.
  - intros Hr. destruct D as [D|[D _]]; [exact D|contradiction].
  - intros Heq. destruct D as [D|[D1 D2]]; [lia|].
    split; [exact D1|]. subst r st'.
    destruct fuel as [|fuel]; [discriminate|]. simpl in H.
    destruct (ParsePrimary fuel st) as [[[LHS|] s]|] eqn:E; try discriminate.
    + apply ParsePrimary_progress in E. destruct E as [E|[E _]]; [|discriminate].
      apply ParseBinOpRHS_steps, steps_nu in H. rewrite nu_fputs_stderr in H. lia.
    + inversion H; subst s. clear H.
      destruct fuel as [|fuel]; [discriminate|]. simpl in E.
      destruct (Z.eqb_spec (CurTok st) tok_identifier) as [E1|E1].
      { apply ParseIdentifierExpr_consumes in E; [|rewrite E1; discriminate].
        rewrite nu_fputs_stderr in E. lia. }
      destruct (Z.eqb_spec (CurTok st) tok_number) as [E2|E2].
      { apply (inj Some) in E. unfold ParseNumberExpr in E.
        destruct (getNextToken st); discriminate. }
      destruct (Z.eqb_spec (CurTok st) (chr "(")) as [E3|E3].
      { apply ParseParenExpr_consumes in E; [|rewrite E3; discriminate].
        rewrite nu_fputs_stderr in E. lia. }
      auto.
Qed.

Lemma parse_progress_witness :
  (nu (final_state (ParseExpression 4 (main_init "x+1;"))) < nu (main_init "x+1;"))%nat.
Proof.
  refine (proj1 (proj2 (parse_progress 4 (main_init "x+1;")
            (Some (BinaryExprAST "+" (VariableExprAST "x") (NumberExprAST (double_of_Z 1))))
            (final_state (ParseExpression 4 (main_init "x+1;"))) _)) _).
  - vm_compute. reflexivity.
  - discriminate.
Defined.

(** ** Calls *)

(** X10: when the argument loop of [ParseIdentifierExpr] leaves with a
    result, it has added at least one argument after those it was given,
    which it keeps in their order, and the current token is the [')'] that
    ends the list. *)
Theorem argument_loop fuel : forall Args st r st',
  ParseIdentifierExpr_args fuel Args st = Some (Some r, st') ->
  CurTok st' = chr ")" /\
  exists more, more <> [] /\ r = Args ++ more.
Proof.
  induction fuel as [|fuel IH]; intros Args st r st' H; [discriminate|].
  simpl in H.
  destruct (ParseExpression fuel st) as [[[Arg|] s]|]; try discriminate.
  destruct (Z.eqb_spec (CurTok s) (chr ")")) as [E|E].
  { inversion H; subst. split; [exact E|]. exists [Arg]. split; [discriminate|reflexivity]. }
  destruct (negb (CurTok s =? chr ",")); [discriminate|].
  destruct (getNextToken s) as [? s1].
  apply IH in H. destruct H as (Hc & more & _ & ->).
  split; [exact Hc|]. exists (Arg :: more). split; [discriminate|].
  rewrite <- app_assoc. reflexivity.
Qed.

Lemma argument_loop_witness :
  CurTok (final_state (ParseIdentifierExpr_args 6 []
            (snd (getNextToken (snd (getNextToken (main_init "f(x, 2)"))))))) = chr ")".
Proof.
  refine (proj1 (argument_loop 6 []
            (snd (getNextToken (snd (getNextToken (main_init "f(x, 2)")))))
            [VariableExprAST "x"; NumberExprAST (double_of_Z 2)]
            (final_state (ParseIdentifierExpr_args 6 []
               (snd (getNextToken (snd (getNextToken (main_init "f(x, 2)"))))))) _)).
  vm_compute. reflexivity.
Defined.

(** ** Operators of the trees *)

Lemma operators_call Callee Args :
  operators (CallExprAST Callee Args) = operators_of_args Args.
Proof.
  unfold operators_of_args. simpl.
  induction Args as [|a l IH]; [reflexivity|]. simpl. rewrite IH. reflexivity.
Qed.

Lemma accepted_operator st z s p :
  GetTokPrecedence st = (z, s) -> 0 <= p -> (z <? p) = false ->
  registered st (to_char (CurTok st)) /\ CurTok s = CurTok st.
Proof.
  intros E Hp Hz. apply Z.ltb_ge in Hz.
  pose proof (GetTokPrecedence_fst st) as F.
  pose proof (GetTokPrecedence_frame st) as (_ & _ & _ & _ & Hc & _).
  rewrite E in F, Hc. simpl in F, Hc. split; [|exact Hc].
  unfold registered. destruct (negb (isascii (CurTok st))); [lia|].
  simpl in F.
  destruct (precedence (BinopPrecedence st) (to_char (CurTok st)) <=? 0) eqn:E0;
    [lia|]. apply Z.leb_gt in E0. exact E0.
Qed.

Section Operators.

(** What the table reads as, whatever zero entries it has. *)
Variable prec : ascii -> Z.

Definition reads_as (st : State) : Prop :=
  forall k, precedence (BinopPrecedence st) k = prec k.

Definition known (l : list ascii) : Prop := Forall (fun Op => 0 < prec Op) l.

Lemma steps_reads_as st st' : steps st st' -> reads_as st -> reads_as st'.
Proof.
  apply steps_invariant.
  - intros s H k. rewrite getNextToken_BinopPrecedence. apply H.
  - intros s H k. destruct (GetTokPrecedence_grows s) as [_ ->]. apply H.
  - intros x s H. exact H.
Qed.

Definition known_at (fuel : nat) : Prop :=
  (forall st e st', reads_as st -> ParsePrimary fuel st = Some (Some e, st') ->
                    known (operators e)) /\
  (forall st e st', reads_as st -> ParseParenExpr fuel st = Some (Some e, st') ->
                    known (operators e)) /\
  (forall st e st', reads_as st -> ParseIdentifierExpr fuel st = Some (Some e, st') ->
                    known (operators e)) /\
  (forall a st r st', reads_as st -> known (operators_of_args a) ->
                      ParseIdentifierExpr_args fuel a st = Some (Some r, st') ->
                      known (operators_of_args r)) /\
  (forall st e st', reads_as st -> ParseExpression fuel st = Some (Some e, st') ->
                    known (operators e)) /\
  (forall p l st e st', reads_as st -> 0 <= p -> known (operators l) ->
                        ParseBinOpRHS fuel p l st = Some (Some e, st') ->
                        known (operators e)).

Lemma known_nil : known [].
Proof. constructor. Qed.

Lemma known_node Op l r st :
  reads_as st -> registered st Op ->
  known (operators l) -> known (operators r) ->
  known (operators (BinaryExprAST Op l r)).
Proof.
  intros Hr Ho Hl Hrr. simpl. constructor.
  - unfold registered in Ho. rewrite Hr in Ho. exact Ho.
  - apply Forall_app. split; assumption.
Qed.

Lemma parser_known fuel : known_at fuel.
Proof.
  unfold known_at.
  induction fuel as [|fuel (IHp & IHpa & IHi & IHa & IHe & IHb)];
    [repeat (match goal with |- _ /\ _ => split end); intros; discriminate|].
  repeat (match goal with |- _ /\ _ => split end); intros;
    match goal with H : _ = Some _ |- _ => simpl in H end.
  - destruct (CurTok st =? tok_identifier); [eauto|].
    destruct (CurTok st =? tok_number).
    { apply (inj Some) in H0. unfold ParseNumberExpr in H0.
      destruct (getNextToken st). inversion H0; subst. apply known_nil. }
    destruct (CurTok st =? chr "("); [eauto|]. discriminate.
  - destruct (getNextToken st) as [? s] eqn:E. apply getNextToken_steps in E.
    destruct (ParseExpression fuel s) as [[[V|] s1]|] eqn:E1; try discriminate.
    apply IHe in E1; [|eapply steps_reads_as; eauto].
    destruct (negb (CurTok s1 =? chr ")")); [discriminate|].
    destruct (getNextToken s1). inversion H0; subst. exact E1.
  - destruct (getNextToken st) as [? s] eqn:E. apply getNextToken_steps in E.
    destruct (negb (CurTok s =? chr "(")).
    { inversion H0; subst. apply known_nil. }
    destruct (getNextToken s) as [? s0] eqn:E0. apply getNextToken_steps in E0.
    destruct (negb (CurTok s0 =? chr ")")).
    + destruct (ParseIdentifierExpr_args fuel [] s0) as [[[Args|] s1]|] eqn:E1;
        try discriminate.
      apply IHa in E1; [| eapply steps_reads_as; [|exact H]; steps_chain
                         | apply known_nil].
      destruct (getNextToken s1). inversion H0; subst.
      rewrite operators_call. exact E1.
    + simpl in H0. destruct (getNextToken s0). inversion H0; subst.
      apply known_nil.
  - destruct (ParseExpression fuel st) as [[[Arg|] s]|] eqn:E1; try discriminate.
    pose proof (ParseExpression_steps _ _ _ _ E1) as Hs.
    apply IHe in E1; [|exact H].
    assert (Hk : known (operators_of_args (a ++ [Arg]))).
    { unfold operators_of_args in *. rewrite map_app, concat_app.
      apply Forall_app. split; [exact H0|]. simpl. rewrite app_nil_r. exact E1. }
    destruct (CurTok s =? chr ")").
    { inversion H1; subst. exact Hk. }
    destruct (negb (CurTok s =? chr ",")); [discriminate|].
    destruct (getNextToken s) as [? s1] eqn:E2. apply getNextToken_steps in E2.
    eapply IHa; [| exact Hk | exact H1].
    eapply steps_reads_as; [|exact H]. steps_chain.
  - destruct (ParsePrimary fuel st) as [[[LHS|] s]|] eqn:E1; try discriminate.
    pose proof (proj1 (parser_steps fuel) _ _ _ E1) as Hs.
    apply IHp in E1; [|exact H].
    eapply IHb; [| |exact E1|exact H0]; [|lia].
    eapply steps_reads_as; eauto.
  - destruct (GetTokPrecedence st) as [TokPrec s0] eqn:E0.
    destruct (TokPrec <? p) eqn:Ep.
    { inversion H2; subst. exact H1. }
    destruct (accepted_operator _ _ _ _ E0 H0 Ep) as [Hreg Hc].
    apply GetTokPrecedence_steps in E0.
    destruct (getNextToken s0) as [? s1] eqn:E1. apply getNextToken_steps in E1.
    destruct (ParsePrimary fuel s1) as [[[RHS|] s2]|] eqn:E2; try discriminate.
    pose proof (proj1 (parser_steps fuel) _ _ _ E2) as Hs2.
    apply IHp in E2; [|eapply steps_reads_as; [|exact H]; steps_chain].
    destruct (GetTokPrecedence s2) as [NextPrec s3] eqn:E3.
    apply GetTokPrecedence_steps in E3.
    assert (Hpos : 0 <= TokPrec) by (apply Z.ltb_ge in Ep; lia).
    rewrite Hc in H2.
    destruct (TokPrec <? NextPrec).
    + destruct (ParseBinOpRHS fuel (TokPrec + 1) RHS s3) as [[[RHS'|] s4]|] eqn:E4;
        try discriminate.
      pose proof (ParseBinOpRHS_steps _ _ _ _ _ _ E4) as Hs4.
      apply IHb in E4; [| eapply steps_reads_as; [|exact H]; steps_chain
                         | lia | exact E2].
      eapply IHb; [| exact H0 | | exact H2].
      * eapply steps_reads_as; [|exact H]. steps_chain.
      * eapply known_node; eauto.
    + simpl in H2. eapply IHb; [| exact H0 | | exact H2].
      * eapply steps_reads_as; [|exact H]. steps_chain.
      * eapply known_node; eauto.
Qed.

End Operators.

(** X11: every operator of a tree that [ParseExpression] returns has a
    positive precedence in the table; with the table that [main] fills,
    it is one of ['<'], ['+'], ['-'], ['*']. *)
Theorem parsed_operators fuel st e st' :
  ParseExpression fuel st = Some (Some e, st') ->
  Forall (registered st) (operators e) /\
  (initialized st ->
   Forall (fun Op => In Op ["<"; "+"; "-"; "*"]%char) (operators e)).
Proof.
  intros H.
  assert (K : Forall (registered st) (operators e)).
  { apply (parser_known (precedence (BinopPrecedence st)) fuel) in H;
      [exact H|intros k; reflexivity]. }
  split; [exact K|]. intros Hi.
  eapply Forall_impl; [exact K|]. intros Op Hr. unfold registered in Hr.
  rewrite Hi in Hr. revert Hr.
  destruct Op as [[] [] [] [] [] [] [] []]; vm_compute; intros Hr;
    try discriminate; auto 10.
Qed.

Lemma parsed_operators_witness :
  Forall (fun Op => In Op ["<"; "+"; "-"; "*"]%char)
    (operators (BinaryExprAST "-" (VariableExprAST "a")
                  (CallExprAST "f" [BinaryExprAST "*" (VariableExprAST "b")
                                      (NumberExprAST (double_of_Z 2))]))).
Proof.
  refine (proj2 (parsed_operators 8 (main_init "a-f(b*2)") _
            (final_state (ParseExpression 8 (main_init "a-f(b*2)"))) _) _).
  - vm_compute. reflexivity.
  - intros k. reflexivity.
Defined.

(** ** Prototypes and definitions *)

Lemma getNextToken_CurTok st :
  CurTok (snd (getNextToken st)) = fst (getNextToken st).
Proof. unfold getNextToken. destruct (gettok st); reflexivity. Qed.

Lemma ParsePrototype_args_spec st : forall ArgNames,
  CurTok (snd (ParsePrototype_args ArgNames st)) <> tok_identifier /\
  (exists more, fst (ParsePrototype_args ArgNames st) = ArgNames ++ more) /\
  stderr (snd (ParsePrototype_args ArgNames st)) = stderr st.
Proof.
  remember (mu st) as n eqn:Hn. revert st Hn.
  induction n as [n IH] using lt_wf_ind; intros st -> ArgNames.
  rewrite ParsePrototype_args_eq.
  pose proof (getNextToken_mu_lt st) as Hlt.
  pose proof (getNextToken_CurTok st) as Hc.
  pose proof (getNextToken_stderr st) as Hs.
  destruct (getNextToken st) as [tok st1]; simpl in *.
  destruct (Z.eqb_spec tok tok_identifier) as [->|Hne].
  - destruct (IH (mu st1) (Hlt ltac:(discriminate)) st1 eq_refl
                (ArgNames ++ [IdentifierStr st1])) as (H1 & (more & H2) & H3).
    split; [exact H1|]. split; [|congruence].
    exists (IdentifierStr st1 :: more). rewrite H2, <- app_assoc. reflexivity.
  - simpl. split; [congruence|]. split; [|exact Hs].
    exists []. rewrite app_nil_r. reflexivity.
Qed.

Lemma ParsePrototype_reported st :
  reported prototype_errors st (fst (ParsePrototype st)) (snd (ParsePrototype st)).
Proof.
  unfold ParsePrototype, LogErrorProto, LogError.
  destruct (negb (CurTok st =? tok_identifier)).
  { simpl. exists "Expected function name in prototype"%string.
    split; [simpl; auto|reflexivity]. }
  pose proof (getNextToken_stderr st) as H1.
  destruct (getNextToken st) as [? st1]; simpl in H1.
  destruct (negb (CurTok st1 =? chr "(")).
  { simpl. exists "Expected '(' in prototype"%string.
    split; [simpl; auto|]. unfold error_line. congruence. }
  pose proof (ParsePrototype_args_spec st1 []) as (_ & _ & H2).
  destruct (ParsePrototype_args [] st1) as [ArgNames st2]; simpl in H2.
  destruct (negb (CurTok st2 =? chr ")")).
  { simpl. exists "Expected ')' in prototype"%string.
    split; [simpl; auto|]. unfold error_line. congruence. }
  pose proof (getNextToken_stderr st2) as H3.
  destruct (getNextToken st2) as [? st3]; simpl in *. congruence.
Qed.

(** X12: [ParsePrototype] gives a prototype without printing, or [nullptr]
    after one error line with one of its three messages.  The prototype has
    the name that was current at the call; when the current token is no
    identifier nothing is consumed. *)
Theorem prototype_outcome st :
  let r := fst (ParsePrototype st) in
  let st' := snd (ParsePrototype st) in
  match r with
  | Some P =>
      stderr st' = stderr st /\
      CurTok st = tok_identifier /\ Name P = IdentifierStr st
  | None =>
      exists msg,
        In msg prototype_errors /\
        stderr st' = stderr st +:+ "Error: " +:+ msg +:+ NL
  end /\
  (CurTok st <> tok_identifier ->
   r = None /\
   st' = fputs_stderr (error_line "Expected function name in prototype") st).
Proof.
  simpl. split.
  - pose proof (ParsePrototype_reported st) as H. revert H.
    unfold ParsePrototype, LogErrorProto, LogError.
    destruct (Z.eqb_spec (CurTok st) tok_identifier) as [E|E]; simpl; [|auto].
    destruct (getNextToken st) as [? st1].
    destruct (negb (CurTok st1 =? chr "(")); simpl; [auto|].
    destruct (ParsePrototype_args [] st1) as [ArgNames st2].
    destruct (negb (CurTok st2 =? chr ")")); simpl; [auto|].
    destruct (getNextToken st2) as [? st3]; simpl. auto.
  - intros H. unfold ParsePrototype, LogErrorProto, LogError.
    apply Z.eqb_neq in H. rewrite H. simpl. auto.
Qed.

Lemma prototype_outcome_witness :
  fst (ParsePrototype (main_init "(x)")) = None /\
  snd (ParsePrototype (main_init "(x)")) =
    fputs_stderr (error_line "Expected function name in prototype") (main_init "(x)").
Proof.
  apply (proj2 (prototype_outcome (main_init "(x)"))).
  vm_compute. discriminate.
Defined.


Lemma ParseDefinition_reported fuel st r st' :
  ParseDefinition fuel st = Some (r, st') ->
  reported (prototype_errors ++ expression_errors) st r st'.
Proof.
  unfold ParseDefinition. intros H.
  pose proof (getNextToken_stderr st) as H1.
  destruct (getNextToken st) as [? st1]; simpl in H1.
  pose proof (ParsePrototype_reported st1) as H2.
  destruct (ParsePrototype st1) as [[P|] st2]; simpl in H2.
  - destruct (ParseExpression fuel st2) as [[[E|] st3]|] eqn:E3; try discriminate;
      apply (parser_reported fuel) in E3; simpl in E3; inversion H; subst.
    + simpl. congruence.
    + destruct E3 as (msg & Hin & Heq). exists msg.
      split; [apply in_or_app; right; exact Hin|congruence].
  - inversion H; subst. destruct H2 as (msg & Hin & Heq). exists msg.
    split; [apply in_or_app; left; exact Hin|congruence].
Qed.

(** X14: [ParseDefinition], [ParseExtern] and [ParseTopLevelExpr] give a
    result without printing, or [nullptr] after exactly one error line; the
    function that [ParseTopLevelExpr] gives has the prototype with the empty
    name and no parameter. *)
Theorem definition_diagnostics fuel st :
  (forall r st', ParseDefinition fuel st = Some (r, st') ->
     reported (prototype_errors ++ expression_errors) st r st') /\
  reported prototype_errors st (fst (ParseExtern st)) (snd (ParseExtern st)) /\
  (forall r st', ParseTopLevelExpr fuel st = Some (r, st') ->
     reported expression_errors st r st' /\
     forall F, r = Some F -> Proto F = mkPrototypeAST EmptyString []).
Proof.
  split; [|split].
  - intros r st'. apply ParseDefinition_reported.
  - unfold ParseExtern. pose proof (getNextToken_stderr st) as H1.
    destruct (getNextToken st) as [? st1]; simpl in H1.
    eapply reported_shift; [exact H1|]. apply ParsePrototype_reported.
  - intros r st' H. unfold ParseTopLevelExpr in H.
    destruct (ParseExpression fuel st) as [[[E|] st3]|] eqn:E3; try discriminate;
      apply (parser_reported fuel) in E3; inversion H; subst.
    + split; [exact E3|]. intros F [= <-]. reflexivity.
    + split; [exact E3|]. intros F HF. discriminate.
Qed.

Lemma definition_diagnostics_witness :
  reported (prototype_errors ++ expression_errors) (main_init "def f(x y")
    (@None FunctionAST) (final_state (ParseDefinition 3 (main_init "def f(x y"))).
Proof.
  apply (proj1 (definition_diagnostics 3 (main_init "def f(x y"))).
  vm_compute. reflexivity.
Defined.

(** ** New operators *)

Lemma to_char_inj t k : 0 <= t <= 255 -> to_char t = k -> t = chr k.
Proof. intros H <-. symmetry. apply chr_to_char. exact H. Qed.

(** X15: an entry put in the table is what [GetTokPrecedence] answers for
    that character when it is ASCII and the value is positive, and [-1] when
    the value is not positive; the answers for the other tokens stay. *)
Theorem operator_registration st k v :
  let st1 := set_BinopPrecedence (<[k := v]> (BinopPrecedence st)) st in
  isascii (chr k) = true ->
  fst (GetTokPrecedence (set_CurTok (chr k) st1)) = (if v <=? 0 then -1 else v) /\
  forall t, t <> chr k ->
    fst (GetTokPrecedence (set_CurTok t st1)) =
    fst (GetTokPrecedence (set_CurTok t st)).
Proof.
  intros st1 Hk. subst st1. split.
  - rewrite GetTokPrecedence_fst. simpl. rewrite Hk. simpl.
    rewrite to_char_chr. unfold precedence. rewrite lookup_insert_eq. reflexivity.
  - intros t Ht. rewrite !GetTokPrecedence_fst. simpl.
    destruct (isascii t) eqn:Ea; [|reflexivity]. simpl.
    unfold precedence. rewrite lookup_insert_ne; [reflexivity|].
    intros E. apply Ht. symmetry in E. apply to_char_inj in E; [exact E|].
    unfold isascii in Ea. lia.
Qed.

Lemma operator_registration_witness :
  fst (GetTokPrecedence
         (set_CurTok (chr "/")
            (set_BinopPrecedence (<["/"%char := 40]> (BinopPrecedence (main_init "")))
               (main_init "")))) = 40.
Proof.
  exact (proj1 (operator_registration (main_init "") "/"%char 40 eq_refl)).
Defined.

(** ** The driver *)

Lemma ParseDefinition_steps fuel st r st' :
  ParseDefinition fuel st = Some (r, st') -> steps (snd (getNextToken st)) st'.
Proof.
  unfold ParseDefinition. intros H.
  destruct (getNextToken st) as [? st1]; simpl.
  pose proof (ParsePrototype_steps st1) as H2.
  destruct (ParsePrototype st1) as [[P|] st2]; simpl in H2.
  - destruct (ParseExpression fuel st2) as [[[E|] st3]|] eqn:E3; try discriminate;
      apply ParseExpression_steps in E3; inversion H; subst;
      (eapply rtc_trans; [exact H2|exact E3]).
  - inversion H; subst. exact H2.
Qed.

Lemma HandleDefinition_steps fuel st st' :
  HandleDefinition fuel st = Some st' -> steps (snd (getNextToken st)) st'.
Proof.
  unfold HandleDefinition. intros H.
  destruct (ParseDefinition fuel st) as [[[F|] s]|] eqn:E; try discriminate;
    apply ParseDefinition_steps in E; inversion H; subst;
    (eapply rtc_trans; [exact E|]); apply rtc_once; constructor.
Qed.

Lemma HandleExtern_steps st : steps (snd (getNextToken st)) (HandleExtern st).
Proof.
  unfold HandleExtern, ParseExtern.
  destruct (getNextToken st) as [? st1]; simpl.
  pose proof (ParsePrototype_steps st1) as H2.
  destruct (ParsePrototype st1) as [[P|] st2]; simpl in H2;
    (eapply rtc_trans; [exact H2|]); apply rtc_once; constructor.
Qed.

Lemma HandleTopLevelExpression_steps fuel st st' :
  HandleTopLevelExpression fuel st = Some st' -> steps st st'.
Proof.
  unfold HandleTopLevelExpression, ParseTopLevelExpr. intros H.
  destruct (ParseExpression fuel st) as [[[E|] s]|] eqn:E3; try discriminate;
    apply ParseExpression_steps in E3; inversion H; subst;
    (eapply rtc_trans; [exact E3|]); apply rtc_once; constructor.
Qed.

(** A handler called on a token other than [tok_eof] consumes input. *)
Lemma HandleDefinition_consumes fuel st st' :
  CurTok st <> tok_eof ->
  HandleDefinition fuel st = Some st' -> (nu st' < nu st)%nat.
Proof.
  intros Hc H. apply HandleDefinition_steps, steps_nu in H.
  pose proof (getNextToken_nu st) as [_ Hlt]. specialize (Hlt Hc). lia.
Qed.

Lemma HandleExtern_consumes st :
  CurTok st <> tok_eof -> (nu (HandleExtern st) < nu st)%nat.
Proof.
  intros Hc. pose proof (steps_nu _ _ (HandleExtern_steps st)) as H.
  pose proof (getNextToken_nu st) as [_ Hlt]. specialize (Hlt Hc). lia.
Qed.

Lemma HandleTopLevelExpression_consumes fuel st st' :
  CurTok st <> tok_eof ->
  HandleTopLevelExpression fuel st = Some st' -> (nu st' < nu st)%nat.
Proof.
  unfold HandleTopLevelExpression, ParseTopLevelExpr. intros Hc H.
  destruct (ParseExpression fuel st) as [[[E|] s]|] eqn:E3; try discriminate;
    apply ParseExpression_progress in E3; inversion H; subst; clear H.
  - destruct E3 as [E3|[E3 _]]; [|discriminate]. rewrite nu_fputs_stderr. exact E3.
  - pose proof (getNextToken_nu s) as [Hle Hlt].
    destruct E3 as [E3|[_ ->]]; [lia|].
    rewrite nu_fputs_stderr in *. apply Hlt. exact Hc.
Qed.

Lemma HandleDefinition_returns fuel st :
  (4 * nu st + 3 <= fuel)%nat -> exists st', HandleDefinition fuel st = Some st'.
Proof.
  intros Hf. unfold HandleDefinition, ParseDefinition.
  pose proof (getNextToken_nu st) as [H1 _].
  destruct (getNextToken st) as [? st1]; simpl in H1.
  pose proof (ParsePrototype_nu st1) as H2.
  destruct (ParsePrototype st1) as [[P|] st2]; simpl in H2; [|eauto].
  destruct (parse_terminates fuel st2) as (r & st3 & -> & _); [lia|].
  destruct r; eauto.
Qed.

Lemma HandleTopLevelExpression_returns fuel st :
  (4 * nu st + 3 <= fuel)%nat ->
  exists st', HandleTopLevelExpression fuel st = Some st'.
Proof.
  intros Hf. unfold HandleTopLevelExpression, ParseTopLevelExpr.
  destruct (parse_terminates fuel st Hf) as (r & st3 & -> & _).
  destruct r; eauto.
Qed.

Lemma MainLoop_returns fuel : forall st,
  (4 * nu st + 4 <= fuel)%nat ->
  exists st', MainLoop fuel st = Some st' /\ CurTok st' = tok_eof.
Proof.
  induction fuel as [|fuel IH]; intros st Hf; [lia|]. simpl.
  set (st0 := fputs_stderr "> " st).
  assert (Hn : nu st0 = nu st) by reflexivity.
  destruct (Z.eqb_spec (CurTok st) tok_eof) as [E|E]; [eauto|].
  destruct (CurTok st =? chr ";").
  { apply IH. pose proof (getNextToken_nu st0) as [_ Hlt]. specialize (Hlt E). lia. }
  destruct (CurTok st =? tok_def).
  { destruct (HandleDefinition_returns fuel st0) as [st1 H1]; [lia|].
    rewrite H1. apply IH. apply HandleDefinition_consumes in H1; [lia|exact E]. }
  destruct (CurTok st =? tok_extern).
  { apply IH. pose proof (HandleExtern_consumes st0 E). lia. }
  destruct (HandleTopLevelExpression_returns fuel st0) as [st1 H1]; [lia|].
  rewrite H1. apply IH.
  apply HandleTopLevelExpression_consumes in H1; [lia|exact E].
Qed.

Lemma MainLoop_session_ok fuel : forall st st',
  MainLoop fuel st = Some st' -> session_ok st -> session_ok st'.
Proof.
  induction fuel as [|fuel IH]; intros st st' H Hs; [discriminate|]. simpl in H.
  set (st0 := fputs_stderr "> " st) in *.
  assert (H0 : session_ok st0) by exact Hs.
  destruct (CurTok st =? tok_eof); [inversion H; subst; exact H0|].
  assert (H1 : session_ok (snd (getNextToken st0))).
  { apply getNextToken_session_ok. apply H0. }
  destruct (CurTok st =? chr ";"); [eapply IH; eauto|].
  destruct (CurTok st =? tok_def).
  { destruct (HandleDefinition fuel st0) as [s|] eqn:E; [|discriminate].
    apply HandleDefinition_steps in E. eapply IH; [exact H|].
    eapply steps_session_ok; eauto. }
  destruct (CurTok st =? tok_extern).
  { eapply IH; [exact H|]. eapply steps_session_ok; [apply HandleExtern_steps|exact H1]. }
  destruct (HandleTopLevelExpression fuel st0) as [s|] eqn:E; [|discriminate].
  apply HandleTopLevelExpression_steps in E. eapply IH; [exact H|].
  eapply steps_session_ok; eauto.
Qed.

Lemma MainLoop_CurTok fuel : forall st st',
  MainLoop fuel st = Some st' -> CurTok st' = tok_eof.
Proof.
  induction fuel as [|fuel IH]; intros st st' H; [discriminate|]. simpl in H.
  destruct (Z.eqb_spec (CurTok st) tok_eof) as [E|E].
  { inversion H; subst. exact E. }
  destruct (CurTok st =? chr ";"); [eauto|].
  destruct (CurTok st =? tok_def).
  { destruct (HandleDefinition fuel (fputs_stderr "> " st)); [eauto|discriminate]. }
  destruct (CurTok st =? tok_extern); [eauto|].
  destruct (HandleTopLevelExpression fuel (fputs_stderr "> " st)); [eauto|discriminate].
Qed.

Lemma MainLoop_monotone st : monotone (fun fuel => MainLoop fuel st).
Proof.
  intros n. revert st. induction n as [|n IH]; intros st m r Hle H; [discriminate|].
  destruct m as [|m]; [lia|]. assert (Hnm : (n <= m)%nat) by lia.
  simpl in H |- *.
  destruct (CurTok st =? tok_eof); [exact H|].
  destruct (CurTok st =? chr ";"); [eauto|].
  destruct (CurTok st =? tok_def).
  { unfold HandleDefinition in *.
    destruct (ParseDefinition n (fputs_stderr "> " st)) as [x|] eqn:E; [|discriminate].
    rewrite (ParseDefinition_monotone _ _ _ _ Hnm E).
    destruct x as [[F|] s]; eauto. }
  destruct (CurTok st =? tok_extern); [eauto|].
  unfold HandleTopLevelExpression, ParseTopLevelExpr in *.
  destruct (ParseExpression n (fputs_stderr "> " st)) as [x|] eqn:E; [|discriminate].
  rewrite (ParseExpression_monotone _ _ _ _ Hnm E).
  destruct x as [[F|] s]; eauto.
Qed.

Lemma main_init_nu input : (nu (main_init input) <= String.length input + 2)%nat.
Proof.
  unfold main_init.
  match goal with |- (nu (snd (getNextToken ?s)) <= _)%nat =>
    pose proof (getNextToken_nu s) as [H _];
    assert (Hs : (nu s = String.length input + 2)%nat) by (unfold nu, mu, cur_mu; simpl; lia)
  end. lia.
Qed.

Lemma main_init_session_ok input : session_ok (main_init input).
Proof.
  unfold main_init. apply getNextToken_session_ok.
  unfold cursor_ok, cursor; simpl. unfold chr, EOF; simpl. split; [lia|discriminate].
Qed.

(** X16: [main] returns on every input: its loop ends, at [tok_eof], once
    the bound on the depth is four times the length of the input plus
    twelve, and a larger bound gives the same final state.  When it returns,
    the whole input has been read. *)
Theorem main_terminates input :
  exists st',
    (forall fuel, (4 * String.length input + 12 <= fuel)%nat ->
                  main fuel input = Some st') /\
    CurTok st' = tok_eof /\ LastChar st' = EOF /\ stdin st' = EmptyString.
Proof.
  pose proof (main_init_nu input) as Hn.
  destruct (MainLoop_returns (4 * String.length input + 12) (main_init input))
    as (st' & H & Hc); [lia|].
  exists st'. split; [|split; [exact Hc|]].
  - intros fuel Hf. unfold main. exact (MainLoop_monotone _ _ _ _ Hf H).
  - apply MainLoop_session_ok in H; [|apply main_init_session_ok].
    destruct H as [[_ H1] H2]. specialize (H2 Hc). split; [exact H2|].
    apply H1. exact H2.
Qed.

Lemma main_terminates_witness :
  exists st', main 28 "x+1;" = Some st' /\ stdin st' = EmptyString.
Proof.
  destruct (main_terminates "x+1;") as (st' & H & _ & _ & Hs).
  exists st'. split; [|exact Hs]. apply H. vm_compute. lia.
Defined.

(** X17: the loop of [main] stops at the end of the input only, from any
    state: when [MainLoop] returns, the current token is [tok_eof]; and it
    does return, once the bound is four times what is left to read plus
    four. *)
Theorem MainLoop_terminates fuel st :
  (4 * nu st + 4 <= fuel)%nat ->
  exists st',
    MainLoop fuel st = Some st' /\ CurTok st' = tok_eof /\ (nu st' <= nu st)%nat.
Proof.
  intros Hf. destruct (MainLoop_returns fuel st Hf) as (st' & H & Hc).
  exists st'. split; [exact H|]. split; [exact Hc|].
  clear Hf Hc. revert st st' H.
  induction fuel as [|fuel IH]; intros st st' H; [discriminate|]. simpl in H.
  set (st0 := fputs_stderr "> " st) in *.
  assert (Hn : nu st0 = nu st) by reflexivity.
  destruct (CurTok st =? tok_eof); [inversion H; subst; lia|].
  pose proof (getNextToken_nu st0) as [Hle _].
  destruct (CurTok st =? chr ";"); [apply IH in H; lia|].
  destruct (CurTok st =? tok_def).
  { destruct (HandleDefinition fuel st0) as [s|] eqn:E; [|discriminate].
    apply HandleDefinition_steps, steps_nu in E. apply IH in H. lia. }
  destruct (CurTok st =? tok_extern).
  { pose proof (steps_nu _ _ (HandleExtern_steps st0)). apply IH in H. lia. }
  destruct (HandleTopLevelExpression fuel st0) as [s|] eqn:E; [|discriminate].
  apply HandleTopLevelExpression_steps, steps_nu in E. apply IH in H. lia.
Qed.

Lemma MainLoop_terminates_witness :
  (4 * nu (main_init "def f(x) x*2; f(3") + 4 <= 80)%nat /\
  exists st',
    MainLoop 80 (main_init "def f(x) x*2; f(3") = Some st' /\
    CurTok st' = tok_eof /\ (nu st' <= nu (main_init "def f(x) x*2; f(3"))%nat.
Proof.
  assert (H : (4 * nu (main_init "def f(x) x*2; f(3") + 4 <= 80)%nat)
    by (vm_compute; lia).
  split; [exact H|]. exact (MainLoop_terminates 80 _ H).
Defined.


